(** * mx_proftool: attribution of perf samples to JIT-generated code

    A shallow embedding of the analysis core of [mx_proftool.py]: the
    compiled-code regions and their containment test, the bucketed
    address index and its lookup, the decoding and merging of perf
    events, the attribution pass, the hot-region walk over a disassembly
    and the ranking of regions.

    Python objects that are shared and mutated (regions, perf events)
    live in an object store, a list indexed by object identity; the
    collections of the program hold identities, so that an update through
    one reference is seen through all of them.  Python [int] is [Z],
    Python [float] is the primitive binary64 [float], [dict] keyed by
    integers is [gmap Z], a [set] of integers is [gset Z]. *)

From Stdlib Require Import ZArith String Ascii List Bool Lia.
From Stdlib Require Import Sorting.Permutation Sorting.Sorted.
From Stdlib Require Import Floats.PrimFloat Uint63.
From stdpp Require Import gmap strings list fin_maps.

Open Scope Z_scope.

(** ** Exceptions *)

(** The exceptions the modelled code raises.  [SystemExit] is [mx.abort]. *)
Inductive exn : Type :=
  | AssertionError (msg : string)
  | KeyError (key : Z)
  | IndexError
  | ValueError
  | TypeError
  | SystemExit (msg : string).

Inductive result (A : Type) : Type :=
  | Ok (a : A)
  | Raise (e : exn).

Arguments Ok {A} a.
Arguments Raise {A} e.

Definition bind {A B : Type} (r : result A) (k : A -> result B) : result B :=
  match r with
  | Ok a => k a
  | Raise e => Raise e
  end.

Notation "'let?' x ':=' r 'in' k" := (bind r (fun x => k))
  (at level 10, x pattern, r at level 100, k at level 200).

Definition is_ok {A : Type} (r : result A) : bool :=
  match r with Ok _ => true | Raise _ => false end.

(** ** Python comparisons on floats *)

(** [a >= b] and [a > b] on Python floats. *)
Definition float_ge (a b : float) : bool := PrimFloat.leb b a.
Definition float_gt (a b : float) : bool := PrimFloat.ltb b a.

(** ** Methods and debug information *)

(** A [Method] after its constructor has run: the decoded class name
    and the formatted argument list. *)
Module Method.
Record t : Type := mk {
  line_number_table : list (Z * Z);
  name : string;
  method_arguments : string;
  return_type : string;
  source_file : string;
  class_signature : string
}.

Definition format_name (m : t) (with_arguments : bool) : string :=
  (class_signature m ++ "." ++ name m
     ++ (if with_arguments then method_arguments m else EmptyString))%string.
End Method.

Module DebugFrame.
Record t : Type := mk { method : Method.t; bci : Z }.
End DebugFrame.

Module DebugInfo.
Record t : Type := mk { frames : list DebugFrame.t; pc : Z }.
End DebugInfo.

(** ** Perf events *)

Module PerfEvent.
Record t : Type := mk {
  dso : string;
  period : Z;
  symbol : string;
  pc : Z;
  events : string;
  timestamp : float;
  samples : Z
}.

Definition set_period (v : Z) (e : t) : t :=
  mk (dso e) v (symbol e) (pc e) (events e) (timestamp e) (samples e).
Definition set_dso (v : string) (e : t) : t :=
  mk v (period e) (symbol e) (pc e) (events e) (timestamp e) (samples e).
Definition set_symbol (v : string) (e : t) : t :=
  mk (dso e) (period e) v (pc e) (events e) (timestamp e) (samples e).
End PerfEvent.

(** ** Compiled code regions *)

(** [events] holds identities of perf events (indices into the event
    store of the [PerfOutput] they come from). *)
Module CompiledCodeInfo.
Record t : Type := mk {
  timestamp : float;
  code : list Byte.byte;
  code_size : Z;
  code_addr : Z;
  name : string;
  debug_info : option (list DebugInfo.t);
  unload_time : option float;
  generated : bool;
  events : list nat;
  total_period : Z;
  total_samples : Z;
  methods : option (list Method.t)
}.

(** [CompiledCodeInfo.__init__] *)
Definition init (name : string) (timestamp : float) (code_addr code_size : Z)
    (code : list Byte.byte) (generated : bool)
    (debug_info : option (list DebugInfo.t))
    (methods : option (list Method.t)) : t :=
  mk timestamp code code_size code_addr name debug_info None generated
     [] 0 0 methods.

Definition set_unload_time (ts : float) (c : t) : t :=
  mk (timestamp c) (code c) (code_size c) (code_addr c) (name c)
     (debug_info c) (Some ts) (generated c) (events c) (total_period c)
     (total_samples c) (methods c).

Definition code_begin (c : t) : Z := code_addr c.

Definition code_end (c : t) : Z := code_addr c + code_size c.

Definition contains_timestamp (c : t) (ts : float) : bool :=
  float_ge ts (timestamp c)
  && match unload_time c with
     | None => true
     | Some u => float_gt u ts
     end.

(** [contains(pc, timestamp=None)]: the optional argument is an
    [option]. *)
Definition contains (c : t) (pc : Z) (ts : option float) : bool :=
  if (code_addr c <=? pc) && (pc <? code_end c) then
    generated c
    || match ts with
       | None => true
       | Some t => contains_timestamp c t
       end
  else false.

(** [add(event)], on the event's fields; [ev] is the event's identity. *)
Definition add (ev : nat) (e : PerfEvent.t) (c : t) : result t :=
  if (code_addr c <=? PerfEvent.pc e) && (PerfEvent.pc e <? code_end c) then
    Ok (mk (timestamp c) (code c) (code_size c) (code_addr c) (name c)
           (debug_info c) (unload_time c) (generated c)
           (events c ++ [ev])
           (total_period c + PerfEvent.period e)
           (total_samples c + PerfEvent.samples e)
           (methods c))
  else Raise (AssertionError "event outside the code").
End CompiledCodeInfo.

(** The stub of the examples, sixteen bytes at 0x1000, and a stub of
    no bytes at the same address. *)
Definition stub_x : CompiledCodeInfo.t :=
  CompiledCodeInfo.init "StubX" 0%float 4096 16 (repeat Byte.x00 16) true
    None None.

Definition empty_stub : CompiledCodeInfo.t :=
  CompiledCodeInfo.init "Empty" 0%float 4096 0 [] true None None.

(** ** Hot regions of a disassembly *)

Module Instruction.
Record t : Type := mk {
  address : Z;
  mnemonic : string;
  operand : string;
  bytes : list Byte.byte;
  size : Z
}.
End Instruction.

(** Truth value of [begin], which is [None] or an [int]: [None] and [0]
    are both false. *)
Definition begin_truthy (begin : option Z) : bool :=
  match begin with
  | None => false
  | Some b => negb (b =? 0)
  end.

(** The local variables of [filter_by_hot_region], with the caller's
    [hotpc] set, which the loop mutates. *)
Record hot_state : Type := mk_hot_state {
  hs_index : Z;
  hs_begin : option Z;
  hs_skip : Z;
  hs_regions : list (Z * Z);
  hs_hotpc : gset Z
}.

(** One iteration of the [for instruction in instructions] loop. *)
Definition hot_region_step (context_size : Z) (st : hot_state)
    (instruction : Instruction.t) : hot_state :=
  let index := hs_index st in
  let '(begin, skip, hotpc) :=
    if bool_decide (Instruction.address instruction ∈ hs_hotpc st) then
      (if negb (begin_truthy (hs_begin st))
       then Some (Z.max (index - context_size) 0)
       else hs_begin st,
       0,
       hs_hotpc st ∖ {[Instruction.address instruction]})
    else (hs_begin st, hs_skip st + 1, hs_hotpc st) in
  match begin with
  | Some b =>
      if begin_truthy begin && (context_size <? skip) then
        mk_hot_state (index + 1) None 0 (hs_regions st ++ [(b, index)]) hotpc
      else mk_hot_state (index + 1) begin skip (hs_regions st) hotpc
  | None => mk_hot_state (index + 1) begin skip (hs_regions st) hotpc
  end.

Definition hot_region_loop (context_size : Z) (st : hot_state)
    (instructions : list Instruction.t) : hot_state :=
  fold_left (hot_region_step context_size) instructions st.

(** What [filter_by_hot_region] returns and leaves behind: the regions,
    the [hotpc] set after the walk, and the addresses printed as
    unattributed ([None] when nothing is printed). *)
Record hot_result : Type := mk_hot_result {
  hr_regions : list (Z * Z);
  hr_hotpc : gset Z;
  hr_unattributed : option (list Z)
}.

Definition filter_by_hot_region (instructions : list Instruction.t)
    (hotpc : gset Z) (context_size : Z) : hot_result :=
  let st := hot_region_loop context_size
              (mk_hot_state 0 None 0 [] hotpc) instructions in
  let regions :=
    match hs_begin st with
    | Some b =>
        if begin_truthy (hs_begin st)
        then hs_regions st ++ [(b, hs_index st)]
        else hs_regions st
    | None => hs_regions st
    end in
  mk_hot_result regions (hs_hotpc st)
    (if bool_decide (size (hs_hotpc st) ≠ 0%nat)
     then Some (elements (hs_hotpc st)) else None).

(** A listing of [n] one-byte instructions at the addresses 0 to [n - 1],
    for the examples. *)
Definition nops (n : nat) : list Instruction.t :=
  List.map (fun a => Instruction.mk (Z.of_nat a) "nop" EmptyString [] 1) (seq 0 n).

(** ** Text of the perf output *)

(** Lines are strings of ASCII characters.  [isspace] is Python's
    whitespace test on them, the one [str.strip] and the pattern class
    [\s] both use: tab to carriage return, the four separators 28 to 31,
    and the space. *)
Definition isspace (c : ascii) : bool :=
  let n := nat_of_ascii c in
  ((9 <=? n)%nat && (n <=? 13)%nat) || ((28 <=? n)%nat && (n <=? 32)%nat).

Fixpoint lstrip (s : string) : string :=
  match s with
  | EmptyString => EmptyString
  | String c s' => if isspace c then lstrip s' else s
  end.

Fixpoint rstrip (s : string) : string :=
  match s with
  | EmptyString => EmptyString
  | String c s' =>
      match rstrip s' with
      | EmptyString => if isspace c then EmptyString else String c EmptyString
      | r => String c r
      end
  end.

(** [line.strip()] *)
Definition strip (s : string) : string := rstrip (lstrip s).

Definition is_digit (c : ascii) : bool :=
  let n := nat_of_ascii c in (48 <=? n)%nat && (n <=? 57)%nat.

Definition is_hex_digit (c : ascii) : bool :=
  let n := nat_of_ascii c in
  is_digit c || ((97 <=? n)%nat && (n <=? 102)%nat)
  || ((65 <=? n)%nat && (n <=? 70)%nat).

Definition hex_digit_value (c : ascii) : Z :=
  let n := Z.of_nat (nat_of_ascii c) in
  if is_digit c then n - 48
  else if (97 <=? n) && (n <=? 102) then n - 87
  else n - 55.

Fixpoint int_of_digits (base : Z) (acc : Z) (s : string) : Z :=
  match s with
  | EmptyString => acc
  | String c s' => int_of_digits base (acc * base + hex_digit_value c) s'
  end.

(** [int(s)] and [int(s, 16)] on the strings the pattern below can
    capture, which hold digits of the base only: the empty string is a
    [ValueError], anything else its value.  The bound that later Python
    versions put on the length of a decimal numeral is not modelled. *)
Definition py_int (base : Z) (s : string) : result Z :=
  match s with
  | EmptyString => Raise ValueError
  | _ => Ok (int_of_digits base 0 s)
  end.

(** ** The pattern of a perf record *)

(** The fragment of Python's regular expressions that [perf_re] uses:
    single characters of a class, greedy repetition of a class, sequence
    and named groups. *)
Inductive regex : Type :=
  | Eps
  | Cls (p : ascii -> bool)
  | Star (p : ascii -> bool)
  | Plus (p : ascii -> bool)
  | Seq (r1 r2 : regex)
  | Group (name : string) (r : regex).

Definition Lit (c : ascii) : regex := Cls (Ascii.eqb c).

Definition seq_of (rs : list regex) : regex := foldr Seq Eps rs.

(** The named groups captured so far, most recent first. *)
Definition groups : Type := list (string * string).

(** Greedy repetition with backtracking: take as many characters of the
    class as possible, then give back one at a time while the rest of
    the pattern fails. *)
Fixpoint star_match (p : ascii -> bool) (s : string)
    (k : string -> option groups) : option groups :=
  match s with
  | EmptyString => k s
  | String c s' =>
      if p c then
        match star_match p s' k with
        | Some g => Some g
        | None => k s
        end
      else k s
  end.

(** The part of [s] consumed when [s'] is what remains. *)
Definition consumed (s s' : string) : string :=
  substring 0 (String.length s - String.length s') s.

(** Backtracking matcher in continuation-passing style: [k] is the rest
    of the pattern. *)
Fixpoint regex_match (r : regex) (s : string) (g : groups)
    (k : string -> groups -> option groups) : option groups :=
  match r with
  | Eps => k s g
  | Cls p =>
      match s with
      | String c s' => if p c then k s' g else None
      | EmptyString => None
      end
  | Star p => star_match p s (fun s' => k s' g)
  | Plus p =>
      match s with
      | String c s' => if p c then star_match p s' (fun s' => k s' g) else None
      | EmptyString => None
      end
  | Seq r1 r2 => regex_match r1 s g (fun s' g' => regex_match r2 s' g' k)
  | Group name r =>
      regex_match r s g (fun s' g' => k s' ((name, consumed s s') :: g'))
  end.

(** [pattern.match(s)]: the pattern must match at the start of [s], not
    all of it. *)
Definition re_match (r : regex) (s : string) : option groups :=
  regex_match r s [] (fun _ g => Some g).

(** [m.group(name)] *)
Fixpoint group (m : groups) (name : string) : string :=
  match m with
  | [] => EmptyString
  | (n, v) :: m' => if String.eqb n name then v else group m' name
  end.

Definition not_space (c : ascii) : bool := negb (isspace c).

(** [.] matches any character but a newline. *)
Definition dot (c : ascii) : bool := negb (Ascii.eqb c "010"%char).

(** [perf_re], item by item in the order of the source pattern: the
    group [timestamp] (one or more digits, a dot, any digits), a colon,
    whitespace, the group [period] (any digits), whitespace, the group
    [events] (any characters but whitespace), a colon, whitespace, the
    group [pc] (one or more hexadecimal digits), whitespace, the group
    [symbol] (any characters), whitespace, an opening parenthesis, the
    group [dso] (any characters), a closing parenthesis and optional
    whitespace.  Every repetition is greedy. *)
Definition perf_re : regex :=
  seq_of
    [ Group "timestamp" (seq_of [Plus is_digit; Lit "."; Star is_digit]);
      Lit ":"; Plus isspace;
      Group "period" (Star is_digit);
      Plus isspace;
      Group "events" (Star not_space);
      Lit ":"; Plus isspace;
      Group "pc" (Plus is_hex_digit);
      Plus isspace;
      Group "symbol" (Star dot);
      Plus isspace; Lit "(";
      Group "dso" (Star dot);
      Lit ")"; Star isspace ].

(** What the matcher computes, as a relation: [matches r s g s' g'] when
    [r] consumes [s] down to [s'] and extends the groups [g] to [g']. *)
Inductive star_run (p : ascii -> bool) : string -> string -> Prop :=
  | star_run_stop s : star_run p s s
  | star_run_step c s s' :
      p c = true -> star_run p s s' -> star_run p (String c s) s'.

Inductive matches : regex -> string -> groups -> string -> groups -> Prop :=
  | matches_eps s g : matches Eps s g s g
  | matches_cls p c s g : p c = true -> matches (Cls p) (String c s) g s g
  | matches_star p s s' g : star_run p s s' -> matches (Star p) s g s' g
  | matches_plus p c s s' g :
      p c = true -> star_run p s s' -> matches (Plus p) (String c s) g s' g
  | matches_seq r1 r2 s g s1 g1 s2 g2 :
      matches r1 s g s1 g1 -> matches r2 s1 g1 s2 g2 ->
      matches (Seq r1 r2) s g s2 g2
  | matches_group name r s g s' g' :
      matches r s g s' g' ->
      matches (Group name r) s g s' ((name, consumed s s') :: g').

(** The fields of the record on a line, when the line matches. *)
Definition record_fields (line : string) : option groups :=
  re_match perf_re (strip line).

(** ** Decoding and merging perf events *)

(** [store] holds the [PerfEvent] objects by identity; [events] and
    [raw_events] list identities.  The cache of [get_top_methods] is
    left out. *)
Module PerfOutput.
Record t : Type := mk {
  store : list PerfEvent.t;
  events : list nat;
  raw_events : list nat;
  total_samples : Z;
  total_period : Z
}.

(** The fields [__init__] sets before it reads the file. *)
Definition empty : t := mk [] [] [] 0 0.
End PerfOutput.

Section ReadPerfOutput.

(** Python's [float] on a captured timestamp, digits with one dot,
    where it raises nothing. *)
Variable py_float : string -> float.

(** [PerfEvent.__init__], from the captured strings. *)
Definition PerfEvent_init (timestamp events period pc symbol dso : string)
    : result PerfEvent.t :=
  let? period := py_int 10 period in
  let? pc := py_int 16 pc in
  Ok (PerfEvent.mk dso period symbol pc events (py_float timestamp) 1).

(** The body of the loop of [read_perf_output] for one line. *)
Definition read_perf_line (p : PerfOutput.t) (line : string)
    : result PerfOutput.t :=
  let line := strip line in
  match re_match perf_re line with
  | Some m =>
      let? event :=
        PerfEvent_init (group m "timestamp") (group m "events")
          (group m "period") (group m "pc") (group m "symbol")
          (group m "dso") in
      Ok (PerfOutput.mk
            (PerfOutput.store p ++ [event])
            (PerfOutput.events p ++ [length (PerfOutput.store p)])
            (PerfOutput.raw_events p)
            (PerfOutput.total_samples p)
            (PerfOutput.total_period p + PerfEvent.period event))
  | None =>
      Raise (AssertionError ("Unable to parse perf output: " ++ line))
  end.

Fixpoint read_perf_lines (p : PerfOutput.t) (lines : list string)
    : result PerfOutput.t :=
  match lines with
  | [] => Ok p
  | line :: rest =>
      let? p' := read_perf_line p line in read_perf_lines p' rest
  end.

(** [read_perf_output(fp)], on the lines [fp.readlines()] returns. *)
Definition read_perf_output (p : PerfOutput.t) (lines : list string)
    : result PerfOutput.t :=
  let? p' := read_perf_lines p lines in
  Ok (PerfOutput.mk (PerfOutput.store p') (PerfOutput.events p')
        (PerfOutput.raw_events p')
        (Z.of_nat (length (PerfOutput.events p')))
        (PerfOutput.total_period p')).

End ReadPerfOutput.

(** A [dict] from addresses to event identities in insertion order,
    which is the order of its [values()]. *)
Fixpoint dict_get (d : list (Z * nat)) (key : Z) : option nat :=
  match d with
  | [] => None
  | (k, v) :: d' => if k =? key then Some v else dict_get d' key
  end.

(** One iteration of the loop of [merge_perf_events]: [st] is the event
    store with [events_by_address]; [event] is the identity of the raw
    event.  A [PerfEvent] object is always true, so [if e:] tests
    presence in the dictionary.  [copy.copy] allocates a new object with
    the same fields. *)
Definition merge_step (st : list PerfEvent.t * list (Z * nat)) (event : nat)
    : list PerfEvent.t * list (Z * nat) :=
  let '(store, events_by_address) := st in
  match store !! event with
  | Some ev =>
      match dict_get events_by_address (PerfEvent.pc ev) with
      | Some e =>
          (alter (fun eo => PerfEvent.set_period
                              (PerfEvent.period eo + PerfEvent.period ev) eo)
                 e store,
           events_by_address)
      | None =>
          (store ++ [ev],
           events_by_address ++ [(PerfEvent.pc ev, length store)])
      end
  | None => st
  end.

Definition merge_perf_events (p : PerfOutput.t) : PerfOutput.t :=
  let raw_events := PerfOutput.events p in
  let '(store, events_by_address) :=
    fold_left merge_step (PerfOutput.events p) (PerfOutput.store p, []) in
  PerfOutput.mk store (List.map snd events_by_address) raw_events
    (PerfOutput.total_samples p) (PerfOutput.total_period p).

(** [PerfOutput.__init__], on the lines of the perf output file. *)
Definition PerfOutput_init (py_float : string -> float) (lines : list string)
    : result PerfOutput.t :=
  let? p := read_perf_output py_float PerfOutput.empty lines in
  Ok (merge_perf_events p).

(** The objects a list of identities stands for. *)
Definition objects {A : Type} (store : list A) (ids : list nat) : list A :=
  omap (fun id => store !! id) ids.

(** The total period of the events of [evs] at the address [a]. *)
Definition period_at (a : Z) (evs : list PerfEvent.t) : Z :=
  foldr Z.add 0
    (PerfEvent.period <$> List.filter (fun e => PerfEvent.pc e =? a) evs).

(** The perf data as [read_perf_output] leaves it when the lines decode
    to the events [evs]. *)
Definition decoded (evs : list PerfEvent.t) : PerfOutput.t :=
  PerfOutput.mk evs (seq 0 (length evs)) []
    (Z.of_nat (length evs)) (foldr Z.add 0 (PerfEvent.period <$> evs)).

(** The merged events as a function of the raw ones, in the order of
    the loop: an event at a new address is appended, an event at a known
    address adds its period to the event already there. *)
Definition merge_acc (acc : list PerfEvent.t) (ev : PerfEvent.t)
    : list PerfEvent.t :=
  match list_find (fun m => PerfEvent.pc m = PerfEvent.pc ev) acc with
  | Some (j, _) =>
      alter (fun eo => PerfEvent.set_period
                         (PerfEvent.period eo + PerfEvent.period ev) eo)
            j acc
  | None => acc ++ [ev]
  end.

(** [events_by_address] when the copies [acc] sit in the store from
    position [n] on. *)
Definition dict_of (n : nat) (acc : list PerfEvent.t) : list (Z * nat) :=
  zip (PerfEvent.pc <$> acc) (seq n (length acc)).

(** Two raw events at the address 0x1000 with the periods 100 and 50,
    for the examples. *)
Definition sample_100 : PerfEvent.t :=
  PerfEvent.mk "libfoo.so" 100 "mySymbol" 4096 "cycles" 1234.5%float 1.
Definition sample_50 : PerfEvent.t :=
  PerfEvent.mk "libfoo.so" 50 "mySymbol" 4096 "cycles" 1234.75%float 1.


(** What the copies are after the raw events [seen] have been merged:
    one per address, each with the total period at its address and a
    count of one. *)
Definition merged_inv (seen acc : list PerfEvent.t) : Prop :=
  NoDup (PerfEvent.pc <$> acc)
  /\ (forall a, a ∈ PerfEvent.pc <$> acc <-> a ∈ PerfEvent.pc <$> seen)
  /\ Forall (fun m => PerfEvent.period m = period_at (PerfEvent.pc m) seen
                      /\ PerfEvent.samples m = 1) acc.

(** A conversion of a captured timestamp for the examples: the digits
    without the dot, divided by the power of ten of the number of digits
    behind the dot.  This is Python's [float] when the digits denote an
    integer below 2^53 and at most 18 of them follow the dot, since both
    operands are then exact and the quotient is rounded once.  The
    properties below hold for every conversion. *)
Fixpoint decimal_parts (s : string) (seen_dot : bool) (num scale : Z)
    : Z * Z :=
  match s with
  | EmptyString => (num, scale)
  | String c s' =>
      if is_digit c then
        decimal_parts s' seen_dot (num * 10 + hex_digit_value c)
          (if seen_dot then scale * 10 else scale)
      else decimal_parts s' true num scale
  end.

Definition float_of_decimal (s : string) : float :=
  let '(num, scale) := decimal_parts s false 0 1 in
  PrimFloat.div (PrimFloat.of_uint63 (Uint63.of_Z num))
                (PrimFloat.of_uint63 (Uint63.of_Z scale)).

(** A line feed, and the line of the perf output used in the examples. *)
Definition newline : string := String "010"%char EmptyString.

Definition sample_line : string :=
  "1234.500000: 100 cycles: 1000 mySymbol (libfoo.so)" ++ newline.

(** ** The generated assembly and its address index *)

(** [store] holds the [CompiledCodeInfo] objects by identity; the list
    [code_info], the dictionary [code_by_address] and the buckets of
    [map] hold identities. *)
Module GeneratedAssembly.
Record t : Type := mk {
  store : list CompiledCodeInfo.t;
  code_info : list nat;
  low_address : option Z;
  high_address : option Z;
  code_by_address : gmap Z nat;
  map : gmap Z (list nat)
}.

(** The fields [__init__] sets before it reads the trace. *)
Definition empty : t := mk [] [] None None ∅ ∅.
End GeneratedAssembly.

Definition bucket_size : Z := 8192.

(** [round_up] and [round_down] divide with [/] and truncate with
    [int]: the quotient is a binary64 float, exact for values below
    2^53 because [bucket_size] is a power of two, and [int] truncates
    toward zero, which [Z.quot] does. *)
Definition round_up (value : Z) : Z :=
  bucket_size * Z.quot (value + bucket_size - 1) bucket_size.

Definition round_down (value : Z) : Z :=
  bucket_size * Z.quot value bucket_size.

(** [range(start, stop, step)] for a positive [step]. *)
Fixpoint range_from (start : Z) (count : nat) (step : Z) : list Z :=
  match count with
  | O => []
  | S n => start :: range_from (start + step) n step
  end.

Definition py_range (start stop step : Z) : list Z :=
  range_from start (Z.to_nat ((stop - start + step - 1) / step)) step.

(** The body of the inner loop of [build_search_map]: an absent or empty
    bucket is replaced by a new list, then [code] is appended. *)
Definition add_to_bucket (code : nat) (m : gmap Z (list nat)) (pc : Z)
    : gmap Z (list nat) :=
  match m !! pc with
  | Some (e :: entries) => <[pc := (e :: entries) ++ [code]]> m
  | _ => <[pc := [code]]> m
  end.

(** The body of the outer loop of [build_search_map]. *)
Definition index_code (store : list CompiledCodeInfo.t)
    (m : gmap Z (list nat)) (code : nat) : gmap Z (list nat) :=
  match store !! code with
  | Some c =>
      fold_left (add_to_bucket code)
        (py_range (round_down (CompiledCodeInfo.code_begin c))
                  (round_up (CompiledCodeInfo.code_end c)) bucket_size)
        m
  | None => m
  end.

Definition build_search_map (g : GeneratedAssembly.t) : GeneratedAssembly.t :=
  GeneratedAssembly.mk (GeneratedAssembly.store g)
    (GeneratedAssembly.code_info g)
    (GeneratedAssembly.low_address g) (GeneratedAssembly.high_address g)
    (GeneratedAssembly.code_by_address g)
    (fold_left (index_code (GeneratedAssembly.store g))
       (GeneratedAssembly.code_info g) (GeneratedAssembly.map g)).

(** [GeneratedAssembly.add]: the new object gets the next identity.
    [if not self.low_address] is true for [None] and for [0]; in the
    other branch [max] of an unset [high_address] is a [TypeError]. *)
Definition GeneratedAssembly_add (g : GeneratedAssembly.t)
    (c : CompiledCodeInfo.t) : result GeneratedAssembly.t :=
  let id := length (GeneratedAssembly.store g) in
  let fresh := Ok (CompiledCodeInfo.code_begin c, CompiledCodeInfo.code_end c) in
  let? bounds :=
    match GeneratedAssembly.low_address g with
    | None => fresh
    | Some l =>
        if l =? 0 then fresh
        else
          match GeneratedAssembly.high_address g with
          | Some h => Ok (Z.min l (CompiledCodeInfo.code_begin c),
                          Z.max h (CompiledCodeInfo.code_end c))
          | None => Raise TypeError
          end
    end in
  Ok (GeneratedAssembly.mk (GeneratedAssembly.store g ++ [c])
        (GeneratedAssembly.code_info g ++ [id])
        (Some (fst bounds)) (Some (snd bounds))
        (<[CompiledCodeInfo.code_addr c := id]>
           (GeneratedAssembly.code_by_address g))
        (GeneratedAssembly.map g)).

(** ** Decoding the trace *)

(** The tags of the record kinds: the four ASCII characters read as a
    big-endian integer. *)
Definition tag_of (a b c d : ascii) : Z :=
  Z.of_nat (nat_of_ascii a) * 16777216 + Z.of_nat (nat_of_ascii b) * 65536
  + Z.of_nat (nat_of_ascii c) * 256 + Z.of_nat (nat_of_ascii d).

Definition DynamicCodeTag : Z := tag_of "D" "Y" "N" "C".
Definition CompiledMethodLoadTag : Z := tag_of "C" "M" "L" "T".
Definition CompiledMethodUnloadTag : Z := tag_of "C" "M" "U" "T".

(** One record of the trace as the loop of [read] has decoded it when it
    updates the assembly: the fields of the three record kinds, with the
    methods already constructed and the debug frames already resolved,
    or a tag that is none of the three.  Reading the fields from the
    bytes is not part of this model; timestamps are the floats
    [read_timestamp] returns, addresses the integers
    [read_unsigned_jlong] returns. *)
Inductive trace_record : Type :=
  | DynamicCode (timestamp : float) (name : string) (code_addr code_size : Z)
      (code : list Byte.byte)
  | CompiledMethodUnload (timestamp : float) (code_addr : Z)
  | CompiledMethodLoad (timestamp : float) (code_addr code_size : Z)
      (code : list Byte.byte) (methods : list Method.t)
      (debug_infos : list DebugInfo.t)
  | OtherTag (tag : Z).

Definition record_tag (r : trace_record) : Z :=
  match r with
  | DynamicCode _ _ _ _ _ => DynamicCodeTag
  | CompiledMethodUnload _ _ => CompiledMethodUnloadTag
  | CompiledMethodLoad _ _ _ _ _ _ => CompiledMethodLoadTag
  | OtherTag tag => tag
  end.

(** The state update of one iteration of the loop of [read].
    [self.code_by_address[code_addr]] raises [KeyError] for an absent
    key; the object it returns is always true, so the [mx.abort] under
    [if not nmethod] is never reached.  [methods[0]] raises [IndexError]
    on an empty list. *)
Definition read_record (g : GeneratedAssembly.t) (r : trace_record)
    : result GeneratedAssembly.t :=
  match r with
  | DynamicCode timestamp name code_addr code_size code =>
      GeneratedAssembly_add g
        (CompiledCodeInfo.init name timestamp code_addr code_size code true
           None None)
  | CompiledMethodUnload timestamp code_addr =>
      match GeneratedAssembly.code_by_address g !! code_addr with
      | None => Raise (KeyError code_addr)
      | Some nmethod =>
          Ok (GeneratedAssembly.mk
                (alter (CompiledCodeInfo.set_unload_time timestamp) nmethod
                   (GeneratedAssembly.store g))
                (GeneratedAssembly.code_info g)
                (GeneratedAssembly.low_address g)
                (GeneratedAssembly.high_address g)
                (GeneratedAssembly.code_by_address g)
                (GeneratedAssembly.map g))
      end
  | CompiledMethodLoad timestamp code_addr code_size code methods debug_infos =>
      match methods with
      | [] => Raise IndexError
      | m :: _ =>
          GeneratedAssembly_add g
            (CompiledCodeInfo.init (Method.format_name m true) timestamp
               code_addr code_size code false (Some debug_infos)
               (Some methods))
      end
  | OtherTag tag => Raise (AssertionError "Unexpected tag")
  end.

(** [read]: the loop ends at the end of the stream, or at a tag that is
    zero ([if not tag: return]). *)
Fixpoint read (g : GeneratedAssembly.t) (records : list trace_record)
    : result GeneratedAssembly.t :=
  match records with
  | [] => Ok g
  | r :: rest =>
      if record_tag r =? 0 then Ok g
      else let? g' := read_record g r in read g' rest
  end.

(** The base address a load record gives its region. *)
Definition load_address (r : trace_record) : option Z :=
  match r with
  | DynamicCode _ _ code_addr _ _ => Some code_addr
  | CompiledMethodLoad _ code_addr _ _ _ _ => Some code_addr
  | _ => None
  end.

Definition loaded_addresses (records : list trace_record) : list Z :=
  omap load_address records.

(** A well-formed trace after loads at the addresses [loaded]: only the
    three record kinds, at least one method in every method load, and
    every unload at the address of an earlier load. *)
Fixpoint well_formed_from (loaded : gset Z) (records : list trace_record)
    : bool :=
  match records with
  | [] => true
  | DynamicCode _ _ code_addr _ _ :: rest =>
      well_formed_from ({[code_addr]} ∪ loaded) rest
  | CompiledMethodLoad _ code_addr _ _ methods _ :: rest =>
      match methods with
      | [] => false
      | _ :: _ => well_formed_from ({[code_addr]} ∪ loaded) rest
      end
  | CompiledMethodUnload _ code_addr :: rest =>
      bool_decide (code_addr ∈ loaded) && well_formed_from loaded rest
  | OtherTag _ :: _ => false
  end.

(** What [read] maintains: the keys of [code_by_address] are the
    addresses loaded so far, and [high_address] is set whenever
    [low_address] is. *)
Definition read_inv (loaded : gset Z) (g : GeneratedAssembly.t) : Prop :=
  dom (GeneratedAssembly.code_by_address g) = loaded
  /\ (is_Some (GeneratedAssembly.low_address g) ->
      is_Some (GeneratedAssembly.high_address g)).

(** The trace of the examples: the stub [stub_x] is loaded at time 1
    and an unload record names its address at time 5. *)
Definition stub_trace : list trace_record :=
  [ DynamicCode 1%float "StubX" 4096 16 (repeat Byte.x00 16);
    CompiledMethodUnload 5%float 4096 ].

(** ** Lookup of the region of an address *)

(** A test on the object an identity stands for. *)
Definition region_test (store : list CompiledCodeInfo.t)
    (f : CompiledCodeInfo.t -> bool) (id : nat) : bool :=
  from_option f false (store !! id).

(** [search(pc)]: the linear scan. *)
Definition search (g : GeneratedAssembly.t) (pc : Z) : list nat :=
  List.filter
    (region_test (GeneratedAssembly.store g)
       (fun code => CompiledCodeInfo.contains code pc None))
    (GeneratedAssembly.code_info g).

(** [x.unload_time is None or x.unload_time > timestamp] *)
Definition unloaded_after (timestamp : float) (x : CompiledCodeInfo.t) : bool :=
  match CompiledCodeInfo.unload_time x with
  | None => true
  | Some u => float_gt u timestamp
  end.

(** The search map as [find] uses it: built on the first call, when
    the dictionary is still empty. *)
Definition with_search_map (g : GeneratedAssembly.t) : GeneratedAssembly.t :=
  if bool_decide (GeneratedAssembly.map g = ∅) then build_search_map g else g.

(** The candidates of [find]: the bucket of [pc], filtered by address.
    An absent bucket is [None], which is false like the empty list. *)
Definition find_entries (g : GeneratedAssembly.t) (pc : Z) : list nat :=
  match GeneratedAssembly.map g !! round_down pc with
  | Some (e :: entries) =>
      List.filter
        (region_test (GeneratedAssembly.store g)
           (fun x => CompiledCodeInfo.contains x pc None))
        (e :: entries)
  | _ => []
  end.

(** [find(pc, timestamp)]: the region found, if any, and the assembly
    with its search map. *)
Definition find (g : GeneratedAssembly.t) (pc : Z) (timestamp : float)
    : result (option nat * GeneratedAssembly.t) :=
  let g := with_search_map g in
  let store := GeneratedAssembly.store g in
  match find_entries g pc with
  | [] =>
      match search g pc with
      | [] => Ok (None, g)
      | _ :: _ => Raise (AssertionError "find has no hits but search found")
      end
  | [x] => Ok (Some x, g)
  | entries =>
      match List.find
              (region_test store
                 (fun x => CompiledCodeInfo.contains x pc (Some timestamp)))
              entries with
      | Some x => Ok (Some x, g)
      | None =>
          Ok (List.find (region_test store (unloaded_after timestamp)) entries,
              g)
      end
  end.

(** The address test and the time test of the lookup, as the
    specification words them: an address is in the range of a region
    from its base up to, not including, its end; a stub matches every
    time, another region the times from its load on, before its unload
    if it has one. *)
Definition in_range (pc : Z) (x : CompiledCodeInfo.t) : bool :=
  (CompiledCodeInfo.code_addr x <=? pc) && (pc <? CompiledCodeInfo.code_end x).

Definition time_window_matches (timestamp : float) (x : CompiledCodeInfo.t)
    : bool :=
  CompiledCodeInfo.generated x
  || (float_ge timestamp (CompiledCodeInfo.timestamp x)
      && unloaded_after timestamp x).

(** The bucket of an address in the search map. *)
Definition bucket (g : GeneratedAssembly.t) (pc : Z) : list nat :=
  default [] (GeneratedAssembly.map g !! round_down pc).

(** The regions of the bucket of [pc] whose range contains [pc]. *)
Definition candidates (g : GeneratedAssembly.t) (pc : Z) : list nat :=
  List.filter (region_test (GeneratedAssembly.store g) (in_range pc))
    (bucket g pc).

(** The region the specification selects among several candidates. *)
Definition select_by_time (store : list CompiledCodeInfo.t)
    (timestamp : float) (cands : list nat) : option nat :=
  match List.find (region_test store (time_window_matches timestamp)) cands with
  | Some x => Some x
  | None => List.find (region_test store (unloaded_after timestamp)) cands
  end.

(** The keys of the buckets a region is entered in, and the test that
    the region an identity stands for is entered under [key]. *)
Definition bucket_keys (c : CompiledCodeInfo.t) : list Z :=
  py_range (round_down (CompiledCodeInfo.code_begin c))
           (round_up (CompiledCodeInfo.code_end c)) bucket_size.

Definition covers (store : list CompiledCodeInfo.t) (key : Z) (id : nat)
    : bool :=
  region_test store (fun c => bool_decide (key ∈ bucket_keys c)) id.

(** ** Attribution *)

Definition set_store (store : list CompiledCodeInfo.t)
    (g : GeneratedAssembly.t) : GeneratedAssembly.t :=
  GeneratedAssembly.mk store (GeneratedAssembly.code_info g)
    (GeneratedAssembly.low_address g) (GeneratedAssembly.high_address g)
    (GeneratedAssembly.code_by_address g) (GeneratedAssembly.map g).

(** [add_event(event)]: [event] is the identity of the event and [ev]
    the object in the event store [estore].  The region [find] returns
    has passed the address filter, so it is in the store. *)
Definition add_event (g : GeneratedAssembly.t) (estore : list PerfEvent.t)
    (event : nat) (ev : PerfEvent.t)
    : result (bool * GeneratedAssembly.t * list PerfEvent.t) :=
  let? found := find g (PerfEvent.pc ev) (PerfEvent.timestamp ev) in
  let '(code_info, g) := found in
  match code_info with
  | Some id =>
      match GeneratedAssembly.store g !! id with
      | Some c =>
          let? c' := CompiledCodeInfo.add event ev c in
          let dso := if CompiledCodeInfo.generated c
                     then "[Generated]"%string else "[JIT]"%string in
          Ok (true,
              set_store (<[id := c']> (GeneratedAssembly.store g)) g,
              <[event := PerfEvent.set_symbol (CompiledCodeInfo.name c)
                           (PerfEvent.set_dso dso ev)]> estore)
      | None => Ok (false, g, estore)
      end
  | None => Ok (false, g, estore)
  end.

(** The counters of [attribute_events]. *)
Record counters : Type := mk_counters {
  attributed : Z;
  unknown : Z;
  missing : Z
}.

(** One iteration of the loop of [attribute_events]. *)
Definition attribute_step (low high : Z)
    (st : GeneratedAssembly.t * list PerfEvent.t * counters) (event : nat)
    : result (GeneratedAssembly.t * list PerfEvent.t * counters) :=
  let '(g, estore, n) := st in
  match estore !! event with
  | Some ev =>
      if (low <=? PerfEvent.pc ev) && (PerfEvent.pc ev <? high) then
        let? r := add_event g estore event ev in
        let '(ok, g', estore') := r in
        if ok : bool
        then Ok (g', estore',
                 mk_counters (attributed n + 1) (unknown n) (missing n))
        else Ok (g', estore',
                 mk_counters (attributed n) (unknown n) (missing n + 1))
      else if String.eqb (PerfEvent.symbol ev) "[Unknown]"
      then Ok (g, estore,
               mk_counters (attributed n) (unknown n + 1) (missing n))
      else Ok st
  | None => Ok st
  end.

Fixpoint attribute_loop (low high : Z)
    (st : GeneratedAssembly.t * list PerfEvent.t * counters)
    (events : list nat)
    : result (GeneratedAssembly.t * list PerfEvent.t * counters) :=
  match events with
  | [] => Ok st
  | event :: rest =>
      let? st' := attribute_step low high st event in
      attribute_loop low high st' rest
  end.

(** What [attribute_events] leaves behind: the assembly, the perf data
    with its retagged events, the counters, and the two numbers of the
    warning when [mx.warn] is called. *)
Record attribution : Type := mk_attribution {
  at_assembly : GeneratedAssembly.t;
  at_perf_data : PerfOutput.t;
  at_counters : counters;
  at_warning : option (Z * Z)
}.

Definition attribute_events (g : GeneratedAssembly.t) (perf_data : PerfOutput.t)
    : result attribution :=
  match GeneratedAssembly.low_address g, GeneratedAssembly.high_address g with
  | Some low, Some high =>
      let? st := attribute_loop low high
                   (g, PerfOutput.store perf_data, mk_counters 0 0 0)
                   (PerfOutput.events perf_data) in
      let '(g', estore, n) := st in
      Ok (mk_attribution g'
            (PerfOutput.mk estore (PerfOutput.events perf_data)
               (PerfOutput.raw_events perf_data)
               (PerfOutput.total_samples perf_data)
               (PerfOutput.total_period perf_data))
            n
            (if 50 <? missing n
             then Some (missing n, attributed n + missing n) else None))
  | _, _ => Raise (AssertionError "no address range")
  end.

(** ** Ranking *)

(** [sort(key=..., reverse=True)]: a stable sort by descending key;
    elements with equal keys keep their order. *)
Fixpoint insert_desc (key : nat -> Z) (x : nat) (l : list nat) : list nat :=
  match l with
  | [] => [x]
  | y :: l' => if key y <=? key x then x :: l else y :: insert_desc key x l'
  end.

Definition sort_desc (key : nat -> Z) (l : list nat) : list nat :=
  foldr (insert_desc key) [] l.

Definition total_period_of (store : list CompiledCodeInfo.t) (id : nat) : Z :=
  from_option CompiledCodeInfo.total_period 0 (store !! id).

(** [top_methods(include=None)]: without a predicate [entries] is the
    list [self.code_info] itself, and [sort] reorders it in place; with
    a predicate [entries] is a new list. *)
Definition top_methods (g : GeneratedAssembly.t)
    (include : option (CompiledCodeInfo.t -> bool))
    : list nat * GeneratedAssembly.t :=
  let key := total_period_of (GeneratedAssembly.store g) in
  match include with
  | Some f =>
      (sort_desc key
         (List.filter (region_test (GeneratedAssembly.store g) f)
            (GeneratedAssembly.code_info g)),
       g)
  | None =>
      let entries := sort_desc key (GeneratedAssembly.code_info g) in
      (entries,
       GeneratedAssembly.mk (GeneratedAssembly.store g) entries
         (GeneratedAssembly.low_address g) (GeneratedAssembly.high_address g)
         (GeneratedAssembly.code_by_address g) (GeneratedAssembly.map g))
  end.

(** ** A trace with a reused address, for the examples *)

Definition method_a : Method.t :=
  Method.mk [] "a" "()" "void" "A.java" "foo.A".
Definition method_b : Method.t :=
  Method.mk [] "b" "()" "void" "B.java" "foo.B".

(** Two methods compiled to the same 32 bytes at 0x2000: the first is
    loaded at time 10 and unloaded at time 20, the second is loaded at
    time 30. *)
Definition reuse_trace : list trace_record :=
  [ CompiledMethodLoad 10%float 8192 32 (repeat Byte.x00 32) [method_a] [];
    CompiledMethodUnload 20%float 8192;
    CompiledMethodLoad 30%float 8192 32 (repeat Byte.x00 32) [method_b] [] ].

(** A sample in the second method, at time 35. *)
Definition sample_b : PerfEvent.t :=
  PerfEvent.mk "perf.map" 100 "unknown" 8196 "cycles" 35%float 1.

(** The assembly after the trace has been read and the sample
    attributed. *)
Definition reuse_assembly : option GeneratedAssembly.t :=
  match read GeneratedAssembly.empty reuse_trace with
  | Ok g =>
      match attribute_events g (merge_perf_events (decoded [sample_b])) with
      | Ok a => Some (at_assembly a)
      | Raise _ => None
      end
  | Raise _ => None
  end.

(** The assembly after the trace with the reused address has been
    read. *)
Definition reuse_read : GeneratedAssembly.t :=
  match read GeneratedAssembly.empty reuse_trace with
  | Ok g => g
  | Raise _ => GeneratedAssembly.empty
  end.


(** A trace with two stubs, at 0x2000 and at 0x4000, and [n] samples at
    the addresses from 0x3000 on, which lie between the two. *)
Definition gap_trace : list trace_record :=
  [ DynamicCode 1%float "StubX" 8192 16 (repeat Byte.x00 16);
    DynamicCode 2%float "StubY" 16384 16 (repeat Byte.x00 16) ].

Definition gap_samples (n : nat) : list PerfEvent.t :=
  List.map (fun i => PerfEvent.mk "perf.map" 1 "unknown" (12288 + Z.of_nat i)
                       "cycles" 3%float 1)
    (seq 0 n).

(** The counters and the warning of [attribute_events] on this trace
    with [n] samples. *)
Definition gap_attribution (n : nat) : option (counters * option (Z * Z)) :=
  match read GeneratedAssembly.empty gap_trace with
  | Ok g =>
      match attribute_events g (merge_perf_events (decoded (gap_samples n))) with
      | Ok a => Some (at_counters a, at_warning a)
      | Raise _ => None
      end
  | Raise _ => None
  end.

(** * Properties *)

(** ** Address containment *)

(** C2 (as amended): for a region of positive size the containment test
    without a timestamp is the half-open interval from the base address
    to the end address: false just below the base, true at the base and
    at the last address, false at the end. *)
Theorem contains_half_open (c : CompiledCodeInfo.t) :
  0 < CompiledCodeInfo.code_size c ->
  CompiledCodeInfo.contains c (CompiledCodeInfo.code_begin c - 1) None = false
  /\ CompiledCodeInfo.contains c (CompiledCodeInfo.code_begin c) None = true
  /\ CompiledCodeInfo.contains c (CompiledCodeInfo.code_end c - 1) None = true
  /\ CompiledCodeInfo.contains c (CompiledCodeInfo.code_end c) None = false.
Proof.
  intros Hsize.
  unfold CompiledCodeInfo.contains, CompiledCodeInfo.code_begin,
    CompiledCodeInfo.code_end.
  repeat split.
  - replace (_ <=? _) with false by (symmetry; apply Z.leb_gt; lia). reflexivity.
  - replace (_ <=? _) with true by (symmetry; apply Z.leb_le; lia).
    replace (_ <? _) with true by (symmetry; apply Z.ltb_lt; lia).
    simpl. apply orb_true_r.
  - replace (_ <=? _) with true by (symmetry; apply Z.leb_le; lia).
    replace (_ <? _) with true by (symmetry; apply Z.ltb_lt; lia).
    simpl. apply orb_true_r.
  - replace (_ <? _) with false by (symmetry; apply Z.ltb_ge; lia).
    rewrite andb_false_r. reflexivity.
Qed.

(** C2, as stated, fails: a region of size zero contains no address,
    its base included. *)
Lemma contains_base_fails_for_empty_region :
  CompiledCodeInfo.contains empty_stub
    (CompiledCodeInfo.code_begin empty_stub) None = false.
Proof. reflexivity. Qed.

Lemma contains_half_open_witness :
  CompiledCodeInfo.contains stub_x 4095 None = false
  /\ CompiledCodeInfo.contains stub_x 4096 None = true
  /\ CompiledCodeInfo.contains stub_x 4111 None = true
  /\ CompiledCodeInfo.contains stub_x 4112 None = false.
Proof.
  apply (contains_half_open stub_x).
  simpl. lia.
Defined.

(** ** Hot regions *)

Lemma hot_region_loop_app cs st l1 l2 :
  hot_region_loop cs st (l1 ++ l2)
  = hot_region_loop cs (hot_region_loop cs st l1) l2.
Proof. unfold hot_region_loop. apply fold_left_app. Qed.

Lemma hot_region_step_cold cs st i :
  Instruction.address i ∉ hs_hotpc st ->
  hot_region_step cs st i =
    match hs_begin st with
    | Some b =>
        if begin_truthy (hs_begin st) && (cs <? hs_skip st + 1) then
          mk_hot_state (hs_index st + 1) None 0
            (hs_regions st ++ [(b, hs_index st)]) (hs_hotpc st)
        else mk_hot_state (hs_index st + 1) (hs_begin st) (hs_skip st + 1)
               (hs_regions st) (hs_hotpc st)
    | None => mk_hot_state (hs_index st + 1) None (hs_skip st + 1)
                (hs_regions st) (hs_hotpc st)
    end.
Proof.
  intros Hcold. unfold hot_region_step.
  rewrite bool_decide_eq_false_2 by assumption.
  destruct (hs_begin st); reflexivity.
Qed.

Lemma hot_region_step_hot cs st i :
  Instruction.address i ∈ hs_hotpc st ->
  hot_region_step cs st i =
    let begin := if negb (begin_truthy (hs_begin st))
                 then Some (Z.max (hs_index st - cs) 0) else hs_begin st in
    let hotpc := hs_hotpc st ∖ {[Instruction.address i]} in
    match begin with
    | Some b =>
        if begin_truthy begin && (cs <? 0) then
          mk_hot_state (hs_index st + 1) None 0
            (hs_regions st ++ [(b, hs_index st)]) hotpc
        else mk_hot_state (hs_index st + 1) begin 0 (hs_regions st) hotpc
    | None => mk_hot_state (hs_index st + 1) begin 0 (hs_regions st) hotpc
    end.
Proof.
  intros Hhot. unfold hot_region_step.
  rewrite bool_decide_eq_true_2 by assumption.
  destruct (hs_begin st) as [b|]; simpl; reflexivity.
Qed.

(** A run of cold instructions while no region is open only advances
    the index and the gap counter. *)
Lemma hot_region_loop_cold_closed cs l : forall st,
  Forall (fun i => Instruction.address i ∉ hs_hotpc st) l ->
  begin_truthy (hs_begin st) = false ->
  hot_region_loop cs st l =
    mk_hot_state (hs_index st + Z.of_nat (length l)) (hs_begin st)
      (hs_skip st + Z.of_nat (length l)) (hs_regions st) (hs_hotpc st).
Proof.
  induction l as [|i l IH]; intros st Hcold Hb.
  - destruct st; simpl. f_equal; lia.
  - inversion Hcold as [|? ? Hi Hl]; subst.
    change (hot_region_loop cs st (i :: l))
      with (hot_region_loop cs (hot_region_step cs st i) l).
    rewrite hot_region_step_cold by assumption.
    destruct st as [index begin skip regions hotpc]; simpl in *.
    destruct begin as [b|].
    + rewrite Hb. simpl andb. cbv iota.
      rewrite IH; simpl; try assumption.
      f_equal; lia.
    + rewrite IH; simpl; try assumption; try reflexivity.
      f_equal; lia.
Qed.


Lemma hot_region_loop_cons cs st i l :
  hot_region_loop cs st (i :: l)
  = hot_region_loop cs (hot_region_step cs st i) l.
Proof. reflexivity. Qed.

Lemma step_cold_closed cs index skip regions hotpc i :
  Instruction.address i ∉ hotpc ->
  hot_region_step cs (mk_hot_state index None skip regions hotpc) i
  = mk_hot_state (index + 1) None (skip + 1) regions hotpc.
Proof. intros H. rewrite hot_region_step_cold by exact H. reflexivity. Qed.

Lemma step_cold_open cs index b skip regions hotpc i :
  Instruction.address i ∉ hotpc -> b <> 0 -> skip + 1 <= cs ->
  hot_region_step cs (mk_hot_state index (Some b) skip regions hotpc) i
  = mk_hot_state (index + 1) (Some b) (skip + 1) regions hotpc.
Proof.
  intros H Hb Hs. rewrite hot_region_step_cold by exact H. simpl.
  replace (cs <? skip + 1) with false by (symmetry; apply Z.ltb_ge; lia).
  rewrite andb_false_r. reflexivity.
Qed.

Lemma step_cold_close cs index b skip regions hotpc i :
  Instruction.address i ∉ hotpc -> b <> 0 -> cs < skip + 1 ->
  hot_region_step cs (mk_hot_state index (Some b) skip regions hotpc) i
  = mk_hot_state (index + 1) None 0 (regions ++ [(b, index)]) hotpc.
Proof.
  intros H Hb Hs. rewrite hot_region_step_cold by exact H. simpl.
  replace (cs <? skip + 1) with true by (symmetry; apply Z.ltb_lt; lia).
  replace (b =? 0) with false by (symmetry; apply Z.eqb_neq; exact Hb).
  reflexivity.
Qed.

Lemma step_hot_closed cs index skip regions hotpc i :
  Instruction.address i ∈ hotpc -> 0 <= cs ->
  hot_region_step cs (mk_hot_state index None skip regions hotpc) i
  = mk_hot_state (index + 1) (Some (Z.max (index - cs) 0)) 0 regions
      (hotpc ∖ {[Instruction.address i]}).
Proof.
  intros H Hcs. rewrite hot_region_step_hot by exact H. simpl.
  replace (cs <? 0) with false by (symmetry; apply Z.ltb_ge; lia).
  rewrite andb_false_r. reflexivity.
Qed.

Lemma step_hot_open cs index b skip regions hotpc i :
  Instruction.address i ∈ hotpc -> 0 <= cs -> b <> 0 ->
  hot_region_step cs (mk_hot_state index (Some b) skip regions hotpc) i
  = mk_hot_state (index + 1) (Some b) 0 regions
      (hotpc ∖ {[Instruction.address i]}).
Proof.
  intros H Hcs Hb. rewrite hot_region_step_hot by exact H. simpl.
  replace (b =? 0) with false by (symmetry; apply Z.eqb_neq; exact Hb).
  simpl.
  replace (cs <? 0) with false by (symmetry; apply Z.ltb_ge; lia).
  rewrite andb_false_r. reflexivity.
Qed.

(** With distinct addresses, an instruction whose address is that of
    the instruction at index [k] is the instruction at index [k]. *)
Lemma address_at_index (l : list Instruction.t) (j k : nat) (x : Instruction.t)
    (a : Z) :
  NoDup (Instruction.address <$> l) ->
  Instruction.address <$> (l !! k) = Some a ->
  l !! j = Some x -> Instruction.address x = a -> j = k.
Proof.
  intros Hnd Hk Hj Ha.
  apply (NoDup_lookup (Instruction.address <$> l) j k a Hnd).
  - rewrite list_lookup_fmap, Hj. simpl. congruence.
  - rewrite list_lookup_fmap. exact Hk.
Qed.

Ltac cold_at H k :=
  repeat (apply not_elem_of_difference; left);
  apply (H k _ eq_refl); lia.

(** C4 (as amended): with a context size of 2, over a listing of at
    least 22 instructions with distinct addresses whose hot addresses
    are those of the instructions at indices 5, 6 and 20, the walk
    returns exactly two regions, [(3, 9)] and [(18, e)] where [e] is 22
    for a listing of 22 instructions and 23 for a longer one; the set
    of hot addresses is left empty and nothing is reported as
    unattributed. *)
Theorem hot_regions_at_5_6_20 (l : list Instruction.t) (a5 a6 a20 : Z) :
  NoDup (Instruction.address <$> l) ->
  (22 <= length l)%nat ->
  Instruction.address <$> (l !! 5%nat) = Some a5 ->
  Instruction.address <$> (l !! 6%nat) = Some a6 ->
  Instruction.address <$> (l !! 20%nat) = Some a20 ->
  filter_by_hot_region l {[a5; a6; a20]} 2
  = mk_hot_result [(3, 9); (18, Z.min (Z.of_nat (length l)) 23)] ∅ None.
Proof.
  intros Hnd Hlen H5 H6 H20.
  assert (Hcold : forall j x, l !! j = Some x ->
            j <> 5%nat -> j <> 6%nat -> j <> 20%nat ->
            Instruction.address x ∉ ({[a5; a6; a20]} : gset Z)).
  { intros j x Hj N5 N6 N20 Hin.
    rewrite !elem_of_union, !elem_of_singleton in Hin.
    destruct Hin as [[Hin|Hin]|Hin].
    - apply N5. eapply address_at_index; eauto.
    - apply N6. eapply address_at_index; eauto.
    - apply N20. eapply address_at_index; eauto. }
  assert (N56 : a5 <> a6).
  { intros ->. destruct (l !! 5%nat) as [x|] eqn:E; [|discriminate].
    injection H5 as H5.
    pose proof (address_at_index l 5 6 x a6 Hnd H6 E H5). lia. }
  assert (N520 : a5 <> a20).
  { intros ->. destruct (l !! 5%nat) as [x|] eqn:E; [|discriminate].
    injection H5 as H5.
    pose proof (address_at_index l 5 20 x a20 Hnd H20 E H5). lia. }
  assert (N620 : a6 <> a20).
  { intros ->. destruct (l !! 6%nat) as [x|] eqn:E; [|discriminate].
    injection H6 as H6.
    pose proof (address_at_index l 6 20 x a20 Hnd H20 E H6). lia. }
  clear Hnd.
  destruct l as [|i0 l]; [simpl in Hlen; lia|].
  destruct l as [|i1 l]; [simpl in Hlen; lia|].
  destruct l as [|i2 l]; [simpl in Hlen; lia|].
  destruct l as [|i3 l]; [simpl in Hlen; lia|].
  destruct l as [|i4 l]; [simpl in Hlen; lia|].
  destruct l as [|i5 l]; [simpl in Hlen; lia|].
  destruct l as [|i6 l]; [simpl in Hlen; lia|].
  destruct l as [|i7 l]; [simpl in Hlen; lia|].
  destruct l as [|i8 l]; [simpl in Hlen; lia|].
  destruct l as [|i9 l]; [simpl in Hlen; lia|].
  destruct l as [|i10 l]; [simpl in Hlen; lia|].
  destruct l as [|i11 l]; [simpl in Hlen; lia|].
  destruct l as [|i12 l]; [simpl in Hlen; lia|].
  destruct l as [|i13 l]; [simpl in Hlen; lia|].
  destruct l as [|i14 l]; [simpl in Hlen; lia|].
  destruct l as [|i15 l]; [simpl in Hlen; lia|].
  destruct l as [|i16 l]; [simpl in Hlen; lia|].
  destruct l as [|i17 l]; [simpl in Hlen; lia|].
  destruct l as [|i18 l]; [simpl in Hlen; lia|].
  destruct l as [|i19 l]; [simpl in Hlen; lia|].
  destruct l as [|i20 l]; [simpl in Hlen; lia|].
  destruct l as [|i21 l]; [simpl in Hlen; lia|].
  simpl in H5, H6, H20.
  injection H5 as <-. injection H6 as <-. injection H20 as <-.
  unfold filter_by_hot_region.
  rewrite hot_region_loop_cons, step_cold_closed by cold_at Hcold 0%nat.
  rewrite hot_region_loop_cons, step_cold_closed by cold_at Hcold 1%nat.
  rewrite hot_region_loop_cons, step_cold_closed by cold_at Hcold 2%nat.
  rewrite hot_region_loop_cons, step_cold_closed by cold_at Hcold 3%nat.
  rewrite hot_region_loop_cons, step_cold_closed by cold_at Hcold 4%nat.
  rewrite hot_region_loop_cons, step_hot_closed by (try lia; set_solver).
  rewrite hot_region_loop_cons, step_hot_open
    by (try lia; clear -N56 N520 N620; set_solver).
  rewrite hot_region_loop_cons, step_cold_open by (try lia; cold_at Hcold 7%nat).
  rewrite hot_region_loop_cons, step_cold_open by (try lia; cold_at Hcold 8%nat).
  rewrite hot_region_loop_cons, step_cold_close by (try lia; cold_at Hcold 9%nat).
  rewrite hot_region_loop_cons, step_cold_closed by cold_at Hcold 10%nat.
  rewrite hot_region_loop_cons, step_cold_closed by cold_at Hcold 11%nat.
  rewrite hot_region_loop_cons, step_cold_closed by cold_at Hcold 12%nat.
  rewrite hot_region_loop_cons, step_cold_closed by cold_at Hcold 13%nat.
  rewrite hot_region_loop_cons, step_cold_closed by cold_at Hcold 14%nat.
  rewrite hot_region_loop_cons, step_cold_closed by cold_at Hcold 15%nat.
  rewrite hot_region_loop_cons, step_cold_closed by cold_at Hcold 16%nat.
  rewrite hot_region_loop_cons, step_cold_closed by cold_at Hcold 17%nat.
  rewrite hot_region_loop_cons, step_cold_closed by cold_at Hcold 18%nat.
  rewrite hot_region_loop_cons, step_cold_closed by cold_at Hcold 19%nat.
  rewrite hot_region_loop_cons, step_hot_closed
    by (try lia; clear -N56 N520 N620; set_solver).
  rewrite hot_region_loop_cons, step_cold_open by (try lia; cold_at Hcold 21%nat).
  match goal with
  | |- context [hot_region_loop 2 ?st0 l] =>
      replace st0 with (mk_hot_state 22 (Some 18) 1 [(3, 9)] ∅)
        by (f_equal; set_solver)
  end.
  clear Hcold N56 N520 N620.
  destruct l as [|x l].
  { simpl. reflexivity. }
  rewrite hot_region_loop_cons, step_cold_open by (try lia; set_solver).
  destruct l as [|y l].
  { simpl. reflexivity. }
  rewrite hot_region_loop_cons, step_cold_close by (try lia; set_solver).
  rewrite hot_region_loop_cold_closed.
  - simpl. f_equal. f_equal. f_equal. f_equal. lia.
  - apply Forall_forall. intros. simpl. set_solver.
  - reflexivity.
Qed.


Lemma hot_regions_at_5_6_20_witness :
  filter_by_hot_region (nops 24) {[5; 6; 20]} 2
  = mk_hot_result [(3, 9); (18, 23)] ∅ None.
Proof.
  apply (hot_regions_at_5_6_20 (nops 24) 5 6 20).
  - apply (bool_decide_unpack _). vm_compute. exact I.
  - simpl. lia.
  - reflexivity.
  - reflexivity.
  - reflexivity.
Defined.

(** C4, as stated, fails: on 22 instructions the first region is
    [(3, 9)], not [(3, 8)]; on 24 instructions the second region is
    [(18, 23)], not [(18, 22)]. *)
Lemma hot_regions_claimed_bounds_fail :
  hr_regions (filter_by_hot_region (nops 22) {[5; 6; 20]} 2)
    <> [(3, 8); (18, 22)]
  /\ hr_regions (filter_by_hot_region (nops 24) {[5; 6; 20]} 2)
    <> [(3, 9); (18, 22)].
Proof. split; vm_compute; discriminate. Qed.

(** C5 (the code departs from it): when the only hot address is that
    of the first instruction, the address is matched and removed from
    the set, the region opened for it begins at 0, which the walk takes
    for no open region, and no region is returned. *)
Theorem hot_address_at_first_index_dropped (i0 : Instruction.t)
    (rest : list Instruction.t) (cs : Z) :
  0 <= cs ->
  Forall (fun i => Instruction.address i <> Instruction.address i0) rest ->
  filter_by_hot_region (i0 :: rest) {[Instruction.address i0]} cs
  = mk_hot_result [] ∅ None.
Proof.
  intros Hcs Hrest. unfold filter_by_hot_region.
  rewrite hot_region_loop_cons, step_hot_closed by (try lia; set_solver).
  replace (Z.max (0 - cs) 0) with 0 by lia.
  replace ({[Instruction.address i0]} ∖ {[Instruction.address i0]})
    with (∅ : gset Z) by set_solver.
  rewrite hot_region_loop_cold_closed.
  - simpl. reflexivity.
  - apply Forall_forall. intros. simpl. set_solver.
  - reflexivity.
Qed.

Lemma hot_address_at_first_index_dropped_witness :
  filter_by_hot_region (nops 5) {[0]} 2 = mk_hot_result [] ∅ None.
Proof.
  apply (hot_address_at_first_index_dropped
           (Instruction.mk 0 "nop" EmptyString [] 1) (List.tl (nops 5)) 2).
  - lia.
  - simpl. repeat constructor; simpl; lia.
Defined.

(** ** Merging perf events *)

Lemma dict_get_dict_of (acc : list PerfEvent.t) : forall (n : nat) (a : Z),
  dict_get (dict_of n acc) a
  = (fun r => (n + fst r)%nat) <$> list_find (fun m => PerfEvent.pc m = a) acc.
Proof.
  induction acc as [|m acc IH]; intros n a; [reflexivity|].
  change (dict_of n (m :: acc))
    with ((PerfEvent.pc m, n) :: dict_of (S n) acc).
  simpl.
  destruct (decide (PerfEvent.pc m = a)) as [->|Hne].
  - rewrite Z.eqb_refl. simpl. f_equal. lia.
  - replace (PerfEvent.pc m =? a) with false
      by (symmetry; apply Z.eqb_neq; exact Hne).
    rewrite IH.
    destruct (list_find _ acc) as [[j x]|]; simpl; [f_equal; lia|reflexivity].
Qed.

Lemma dict_of_app n acc ev :
  dict_of n (acc ++ [ev])
  = dict_of n acc ++ [(PerfEvent.pc ev, (n + length acc)%nat)].
Proof.
  unfold dict_of. rewrite fmap_app, length_app, seq_app. simpl.
  rewrite zip_with_app by (rewrite length_fmap, length_seq; reflexivity).
  reflexivity.
Qed.

Lemma dict_of_alter n acc j (f : PerfEvent.t -> PerfEvent.t) :
  (forall e, PerfEvent.pc (f e) = PerfEvent.pc e) ->
  dict_of n (alter f j acc) = dict_of n acc.
Proof.
  intros Hf. unfold dict_of. rewrite length_alter. f_equal.
  apply list_eq. intros i. rewrite !list_lookup_fmap.
  destruct (decide (j = i)) as [->|Hne].
  - rewrite list_lookup_alter_eq. destruct (acc !! i); simpl; [|reflexivity].
    f_equal. apply Hf.
  - rewrite list_lookup_alter_ne by exact Hne. reflexivity.
Qed.

Lemma snd_dict_of n acc : (dict_of n acc).*2 = seq n (length acc).
Proof.
  unfold dict_of. apply snd_zip. rewrite length_fmap, length_seq. lia.
Qed.

(** One iteration of the loop on the store is one step of [merge_acc]
    on the copies. *)
Lemma merge_step_acc (evs acc : list PerfEvent.t) (k : nat) (ev : PerfEvent.t) :
  evs !! k = Some ev ->
  merge_step (evs ++ acc, dict_of (length evs) acc) k
  = (evs ++ merge_acc acc ev, dict_of (length evs) (merge_acc acc ev)).
Proof.
  intros Hk. unfold merge_step, merge_acc.
  rewrite lookup_app_l by (eapply lookup_lt_Some; exact Hk).
  rewrite Hk, dict_get_dict_of.
  destruct (list_find _ acc) as [[j x]|]; simpl.
  - rewrite dict_of_alter by reflexivity. f_equal.
    apply list_eq. intros i.
    destruct (decide (i = length evs + j)%nat) as [->|Hne].
    + rewrite list_lookup_alter_eq, !lookup_app_r by lia.
      replace (length evs + j - length evs)%nat with j by lia.
      rewrite list_lookup_alter_eq. reflexivity.
    + rewrite list_lookup_alter_ne by lia.
      destruct (decide (i < length evs)%nat).
      * rewrite !lookup_app_l by lia. reflexivity.
      * rewrite !lookup_app_r by lia.
        rewrite list_lookup_alter_ne by lia. reflexivity.
  - rewrite dict_of_app, length_app, <- app_assoc. reflexivity.
Qed.

Lemma merge_steps_acc (evs : list PerfEvent.t) (ids : list nat) :
  forall acc : list PerfEvent.t,
  Forall (fun k => is_Some (evs !! k)) ids ->
  fold_left merge_step ids (evs ++ acc, dict_of (length evs) acc)
  = (evs ++ fold_left merge_acc (objects evs ids) acc,
     dict_of (length evs) (fold_left merge_acc (objects evs ids) acc)).
Proof.
  induction ids as [|k ids IH]; intros acc Hids; [reflexivity|].
  inversion Hids as [|? ? [ev Hk] Hids']; subst.
  cbn [fold_left]. rewrite (merge_step_acc evs acc k ev Hk).
  rewrite IH by exact Hids'.
  unfold objects. simpl. rewrite Hk. reflexivity.
Qed.

Lemma objects_seq {A : Type} (l : list A) : forall (pre : list A),
  objects (pre ++ l) (seq (length pre) (length l)) = l.
Proof.
  induction l as [|x l IH]; intros pre; [reflexivity|].
  unfold objects in *. simpl.
  rewrite lookup_app_r, Nat.sub_diag by lia. simpl. f_equal.
  specialize (IH (pre ++ [x])).
  rewrite length_app, <- app_assoc in IH. simpl in IH.
  rewrite Nat.add_1_r in IH. exact IH.
Qed.

(** The loop of [merge_perf_events] over decoded events: the raw events
    stay where they are, the copies are appended behind them. *)
Lemma merge_perf_events_decoded (evs : list PerfEvent.t) :
  let merged := fold_left merge_acc evs [] in
  merge_perf_events (decoded evs)
  = PerfOutput.mk (evs ++ merged) (seq (length evs) (length merged))
      (seq 0 (length evs)) (PerfOutput.total_samples (decoded evs))
      (PerfOutput.total_period (decoded evs)).
Proof.
  intros merged. unfold merge_perf_events, decoded. simpl.
  pose proof (merge_steps_acc evs (seq 0 (length evs)) []) as H.
  rewrite app_nil_r in H. change (dict_of (length evs) []) with (@nil (Z * nat)) in H.
  rewrite H.
  - pose proof (objects_seq evs []) as Ho. simpl in Ho. rewrite Ho.
    fold merged. rewrite snd_dict_of. reflexivity.
  - apply Forall_forall. intros k Hk. apply lookup_lt_is_Some.
    apply elem_of_seq in Hk. lia.
Qed.

Lemma period_at_snoc a l ev :
  period_at a (l ++ [ev])
  = period_at a l + (if PerfEvent.pc ev =? a then PerfEvent.period ev else 0).
Proof.
  unfold period_at. rewrite List.filter_app. simpl.
  destruct (PerfEvent.pc ev =? a); rewrite fmap_app, foldr_app; simpl.
  - generalize (PerfEvent.period <$> List.filter (fun e => PerfEvent.pc e =? a) l).
    intros ps. induction ps as [|p ps IH]; simpl; [lia|].
    rewrite IH. lia.
  - lia.
Qed.

Lemma period_at_absent a l :
  a ∉ PerfEvent.pc <$> l -> period_at a l = 0.
Proof.
  intros Ha. unfold period_at.
  induction l as [|e l IH]; [reflexivity|].
  rewrite fmap_cons, not_elem_of_cons in Ha. destruct Ha as [Hne Ha].
  simpl. replace (PerfEvent.pc e =? a) with false
    by (symmetry; apply Z.eqb_neq; congruence).
  apply IH, Ha.
Qed.

Lemma merge_acc_inv seen acc ev :
  PerfEvent.samples ev = 1 ->
  merged_inv seen acc -> merged_inv (seen ++ [ev]) (merge_acc acc ev).
Proof.
  intros Hs (Hnd & Hdom & Hall). unfold merge_acc.
  destruct (list_find _ acc) as [[j m]|] eqn:Hfind.
  - apply list_find_Some in Hfind as (Hj & Hpc & _).
    set (f := fun eo => PerfEvent.set_period
                          (PerfEvent.period eo + PerfEvent.period ev) eo).
    assert (Hpcs : PerfEvent.pc <$> alter f j acc = PerfEvent.pc <$> acc).
    { apply list_eq. intros i. rewrite !list_lookup_fmap.
      destruct (decide (j = i)) as [->|Hne].
      - rewrite list_lookup_alter_eq. destruct (acc !! i); reflexivity.
      - rewrite list_lookup_alter_ne by exact Hne. reflexivity. }
    repeat split.
    + rewrite Hpcs. exact Hnd.
    + rewrite Hpcs, fmap_app, elem_of_app, <- Hdom. intros H. left. exact H.
    + rewrite Hpcs, fmap_app, elem_of_app, <- Hdom. intros [H|H]; [exact H|].
      simpl in H. apply list_elem_of_singleton in H. subst a.
      rewrite <- Hpc. apply list_elem_of_fmap_2.
      eapply list_elem_of_lookup_2, Hj.
    + apply Forall_lookup. intros i x Hi.
      destruct (decide (j = i)) as [->|Hne].
      * rewrite list_lookup_alter_eq, Hj in Hi. simpl in Hi.
        injection Hi as <-. simpl.
        destruct (Forall_lookup_1 _ _ _ _ Hall Hj) as [Hp Hsm].
        rewrite period_at_snoc, Hp, Hpc, Z.eqb_refl. split; [lia|exact Hsm].
      * rewrite list_lookup_alter_ne in Hi by exact Hne.
        destruct (Forall_lookup_1 _ _ _ _ Hall Hi) as [Hp Hsm].
        rewrite period_at_snoc, Hp.
        replace (PerfEvent.pc ev =? PerfEvent.pc x) with false.
        { split; [lia|exact Hsm]. }
        symmetry. apply Z.eqb_neq. intros Heq. apply Hne.
        apply (NoDup_lookup _ j i (PerfEvent.pc ev) Hnd).
        -- rewrite list_lookup_fmap, Hj. simpl. congruence.
        -- rewrite list_lookup_fmap, Hi. simpl. congruence.
  - apply list_find_None in Hfind.
    assert (Hnew : PerfEvent.pc ev ∉ PerfEvent.pc <$> acc).
    { intros Hin. apply list_elem_of_fmap in Hin as (m & Hm & Hin).
      rewrite Forall_forall in Hfind. apply (Hfind m Hin). congruence. }
    repeat split.
    + rewrite fmap_app. apply NoDup_app. repeat split.
      * exact Hnd.
      * intros a Ha Ha'. simpl in Ha'. apply list_elem_of_singleton in Ha'.
        subst a. exact (Hnew Ha).
      * simpl. apply NoDup_singleton.
    + rewrite !fmap_app, !elem_of_app, Hdom. tauto.
    + rewrite !fmap_app, !elem_of_app, Hdom. tauto.
    + apply Forall_app. split.
      * apply Forall_forall. intros m Hm.
        destruct (proj1 (Forall_forall _ _) Hall m Hm) as [Hp Hsm].
        split; [|exact Hsm]. rewrite period_at_snoc, Hp.
        destruct (PerfEvent.pc ev =? PerfEvent.pc m) eqn:E; [|lia].
        exfalso. apply Z.eqb_eq in E. apply Hnew. rewrite E.
        apply list_elem_of_fmap_2, Hm.
      * constructor; [|constructor]. split; [|exact Hs].
        rewrite period_at_snoc, Z.eqb_refl, period_at_absent; [lia|].
        rewrite <- Hdom. exact Hnew.
Qed.

Lemma merged_inv_fold (l : list PerfEvent.t) : forall seen acc,
  Forall (fun e => PerfEvent.samples e = 1) l ->
  merged_inv seen acc -> merged_inv (seen ++ l) (fold_left merge_acc l acc).
Proof.
  induction l as [|ev l IH]; intros seen acc Hl Hinv.
  - rewrite app_nil_r. exact Hinv.
  - inversion Hl as [|? ? Hev Hl']; subst. simpl.
    replace (seen ++ ev :: l) with ((seen ++ [ev]) ++ l)
      by (rewrite <- app_assoc; reflexivity).
    apply IH; [exact Hl'|]. apply merge_acc_inv; assumption.
Qed.

Lemma merged_inv_nil : merged_inv [] [].
Proof.
  repeat split; try (intros H; exact H).
  - constructor.
  - constructor.
Qed.

Lemma objects_cons {A : Type} (store : list A) (id : nat) (ids : list nat) :
  objects store (id :: ids)
  = match store !! id with
    | Some x => x :: objects store ids
    | None => objects store ids
    end.
Proof. reflexivity. Qed.

Lemma objects_app_l {A : Type} (l extra : list A) (ids : list nat) :
  Forall (fun id => (id < length l)%nat) ids ->
  objects (l ++ extra) ids = objects l ids.
Proof.
  induction ids as [|id ids IH]; intros Hids; [reflexivity|].
  inversion Hids as [|? ? Hid Hids']; subst.
  rewrite !objects_cons, lookup_app_l by exact Hid.
  rewrite IH by exact Hids'. reflexivity.
Qed.

(** C6: merging the decoded events [evs], each with a count of one,
    leaves the raw list in place with every record unchanged, and
    produces new objects, one per address of [evs], each with the sum of
    the periods of the raw events at its address as its period and a
    count of one. *)
Theorem merge_perf_events_sums (evs : list PerfEvent.t) :
  Forall (fun e => PerfEvent.samples e = 1) evs ->
  let p := merge_perf_events (decoded evs) in
  let merged := objects (PerfOutput.store p) (PerfOutput.events p) in
  PerfOutput.raw_events p = PerfOutput.events (decoded evs)
  /\ objects (PerfOutput.store p) (PerfOutput.raw_events p) = evs
  /\ length merged = length (PerfOutput.events p)
  /\ Forall (fun id => (length evs <= id)%nat) (PerfOutput.events p)
  /\ NoDup (PerfEvent.pc <$> merged)
  /\ (forall a, a ∈ PerfEvent.pc <$> merged <-> a ∈ PerfEvent.pc <$> evs)
  /\ Forall (fun m => PerfEvent.period m = period_at (PerfEvent.pc m) evs
                      /\ PerfEvent.samples m = 1) merged.
Proof.
  intros Hs p merged. subst merged p.
  rewrite merge_perf_events_decoded. simpl.
  set (merged := fold_left merge_acc evs []).
  pose proof (objects_seq merged evs) as Hm.
  destruct (merged_inv_fold evs [] [] Hs merged_inv_nil) as (Hnd & Hdom & Hall).
  fold merged in Hnd, Hdom, Hall. simpl in Hdom, Hall.
  rewrite Hm, length_seq.
  repeat split; try assumption; try reflexivity.
  - rewrite objects_app_l.
    + exact (objects_seq evs []).
    + apply Forall_forall. intros id Hid. apply elem_of_seq in Hid. lia.
  - apply Forall_forall. intros id Hid. apply elem_of_seq in Hid. lia.
  - apply Hdom.
  - apply Hdom.
Qed.

(** ** Decoding perf events *)

Lemma star_match_inv p s : forall k g',
  star_match p s k = Some g' ->
  exists s', star_run p s s' /\ k s' = Some g'.
Proof.
  induction s as [|c s IH]; intros k g' H; simpl in H.
  - exists EmptyString. split; [constructor|exact H].
  - destruct (p c) eqn:Hc.
    + destruct (star_match p s k) as [g1|] eqn:Hs.
      * injection H as <-. destruct (IH k g1 Hs) as (s' & Hrun & Hk).
        exists s'. split; [constructor; assumption|exact Hk].
      * exists (String c s). split; [constructor|exact H].
    + exists (String c s). split; [constructor|exact H].
Qed.

(** The matcher only succeeds along a match of the pattern. *)
Lemma regex_match_inv r : forall s g k g',
  regex_match r s g k = Some g' ->
  exists s1 g1, matches r s g s1 g1 /\ k s1 g1 = Some g'.
Proof.
  induction r as [|p|p|p|r1 IH1 r2 IH2|name r IH]; intros s g k g' H;
    simpl in H.
  - exists s, g. split; [constructor|exact H].
  - destruct s as [|c s]; [discriminate|].
    destruct (p c) eqn:Hc; [|discriminate].
    exists s, g. split; [constructor; exact Hc|exact H].
  - apply star_match_inv in H as (s' & Hrun & Hk).
    exists s', g. split; [constructor; exact Hrun|exact Hk].
  - destruct s as [|c s]; [discriminate|].
    destruct (p c) eqn:Hc; [|discriminate].
    apply star_match_inv in H as (s' & Hrun & Hk).
    exists s', g. split; [constructor; assumption|exact Hk].
  - apply IH1 in H as (s1 & g1 & H1 & H).
    apply IH2 in H as (s2 & g2 & H2 & H).
    exists s2, g2. split; [econstructor; eassumption|exact H].
  - apply IH in H as (s1 & g1 & H1 & H).
    exists s1, ((name, consumed s s1) :: g1). split; [constructor; exact H1|exact H].
Qed.

Lemma star_run_length p s s' :
  star_run p s s' -> (String.length s' <= String.length s)%nat.
Proof. induction 1; simpl; lia. Qed.

Lemma consumed_nonempty c s s' :
  (String.length s' <= String.length s)%nat ->
  consumed (String c s) s' <> EmptyString.
Proof.
  intros Hlen. unfold consumed. simpl String.length.
  replace (S (String.length s) - String.length s')%nat
    with (S (String.length s - String.length s')) by lia.
  simpl. discriminate.
Qed.

(** A line that matches has a program counter of at least one digit. *)
Lemma record_fields_pc line m :
  record_fields line = Some m -> group m "pc" <> EmptyString.
Proof.
  unfold record_fields, re_match. intros H.
  apply regex_match_inv in H as (s1 & g1 & H & Hk).
  injection Hk as <-.
  cbv [perf_re seq_of foldr Lit] in H.
  repeat match goal with
         | H : matches (Seq _ _) _ _ _ _ |- _ => inversion H; subst; clear H
         | H : matches (Group _ _) _ _ _ _ |- _ => inversion H; subst; clear H
         | H : matches Eps _ _ _ _ |- _ => inversion H; subst; clear H
         | H : matches (Cls _) _ _ _ _ |- _ => inversion H; subst; clear H
         | H : matches (Star _) _ _ _ _ |- _ => inversion H; subst; clear H
         | H : matches (Plus _) _ _ _ _ |- _ => inversion H; subst; clear H
         end.
  simpl. apply consumed_nonempty. eapply star_run_length. eassumption.
Qed.

Lemma py_int_ok base s :
  s <> EmptyString -> py_int base s = Ok (int_of_digits base 0 s).
Proof. destruct s; [congruence|reflexivity]. Qed.

(** What one line does to the perf data: nothing but an appended event
    with a count of one, or an error when the line does not match or
    has an empty period. *)
Lemma read_perf_line_cases (pf : string -> float) (p : PerfOutput.t)
    (line : string) :
  match record_fields line with
  | None => exists e, read_perf_line pf p line = Raise e
  | Some m =>
      if String.eqb (group m "period") EmptyString
      then read_perf_line pf p line = Raise ValueError
      else exists ev,
        PerfEvent.samples ev = 1
        /\ read_perf_line pf p line
           = Ok (PerfOutput.mk (PerfOutput.store p ++ [ev])
                   (PerfOutput.events p ++ [length (PerfOutput.store p)])
                   (PerfOutput.raw_events p) (PerfOutput.total_samples p)
                   (PerfOutput.total_period p + PerfEvent.period ev))
  end.
Proof.
  unfold read_perf_line. pose proof (record_fields_pc line) as Hpc.
  unfold record_fields in *.
  destruct (re_match perf_re (strip line)) as [m|]; [|eexists; reflexivity].
  specialize (Hpc m eq_refl). unfold PerfEvent_init.
  destruct (String.eqb_spec (group m "period") EmptyString) as [Hp|Hp].
  - rewrite Hp. reflexivity.
  - rewrite !py_int_ok by assumption. simpl.
    eexists (PerfEvent.mk _ _ _ _ _ _ _). split; reflexivity.
Qed.




Lemma sum_periods_snoc (evs : list PerfEvent.t) (ev : PerfEvent.t) :
  foldr Z.add 0 (PerfEvent.period <$> evs ++ [ev])
  = foldr Z.add 0 (PerfEvent.period <$> evs) + PerfEvent.period ev.
Proof.
  rewrite fmap_app, foldr_app. simpl.
  generalize (PerfEvent.period <$> evs). intros ps.
  induction ps as [|q ps IH]; simpl; [lia|]. rewrite IH. lia.
Qed.

(** Decoding keeps the perf data in the shape of [decoded], up to the
    sample count that is set at the end, and every event it appends has
    a count of one. *)
Lemma read_perf_lines_decoded pf lines : forall evs ts p',
  Forall (fun e => PerfEvent.samples e = 1) evs ->
  read_perf_lines pf
    (PerfOutput.mk evs (seq 0 (length evs)) [] ts
       (foldr Z.add 0 (PerfEvent.period <$> evs))) lines = Ok p' ->
  exists evs',
    Forall (fun e => PerfEvent.samples e = 1) evs'
    /\ p' = PerfOutput.mk evs' (seq 0 (length evs')) [] ts
              (foldr Z.add 0 (PerfEvent.period <$> evs')).
Proof.
  induction lines as [|line lines IH]; intros evs ts p' Hs H; simpl in H.
  - injection H as <-. exists evs. split; [exact Hs|reflexivity].
  - match type of H with context [read_perf_line pf ?p line] =>
      pose proof (read_perf_line_cases pf p line) as Hline end.
    destruct (record_fields line) as [m|].
    + destruct (String.eqb (group m "period") EmptyString).
      * rewrite Hline in H. discriminate.
      * destruct Hline as (ev & Hev & Hline). rewrite Hline in H. simpl in H.
        rewrite <- sum_periods_snoc in H.
        replace (seq 0 (length evs) ++ [length evs])
          with (seq 0 (length (evs ++ [ev]))) in H
          by (rewrite length_app, seq_app; reflexivity).
        apply IH in H; [exact H|].
        apply Forall_app. split; [exact Hs|]. constructor; [exact Hev|constructor].
    + destruct Hline as [e Hline]. rewrite Hline in H. discriminate.
Qed.

Lemma read_perf_output_decoded pf lines p :
  read_perf_output pf PerfOutput.empty lines = Ok p ->
  exists evs,
    Forall (fun e => PerfEvent.samples e = 1) evs /\ p = decoded evs.
Proof.
  unfold read_perf_output. intros H.
  destruct (read_perf_lines pf PerfOutput.empty lines) as [p'|] eqn:Hp';
    [|discriminate].
  apply (read_perf_lines_decoded pf lines [] 0 p') in Hp'; [|constructor].
  destruct Hp' as (evs & Hs & ->). simpl in H. injection H as <-.
  exists evs. split; [exact Hs|]. unfold decoded. f_equal.
  rewrite length_seq. reflexivity.
Qed.

(** The line of the specification decodes to an event at 0x1000 with
    the timestamp 1234.5 and the period 100. *)
Example read_sample_line :
  read_perf_output float_of_decimal PerfOutput.empty [sample_line]
  = Ok (decoded [sample_100]).
Proof. vm_compute. reflexivity. Qed.


Lemma merge_perf_events_sums_witness :
  Forall (fun e => PerfEvent.samples e = 1) [sample_100; sample_50]
  /\ PerfOutput.raw_events (merge_perf_events (decoded [sample_100; sample_50]))
     = PerfOutput.events (decoded [sample_100; sample_50]).
Proof.
  split.
  - repeat constructor.
  - apply (merge_perf_events_sums [sample_100; sample_50]).
    repeat constructor.
Defined.

(** Two raw events at one address with the periods 100 and 50 merge
    into one event of period 150 and count 1; the raw list still holds
    both records. *)
Example merge_100_50 :
  let p := merge_perf_events (decoded [sample_100; sample_50]) in
  objects (PerfOutput.store p) (PerfOutput.events p)
  = [PerfEvent.set_period 150 sample_100]
  /\ objects (PerfOutput.store p) (PerfOutput.raw_events p)
     = [sample_100; sample_50].
Proof. vm_compute. split; reflexivity. Qed.

(** ** Decoding the trace *)

Lemma GeneratedAssembly_add_ok loaded g c :
  read_inv loaded g ->
  exists g', GeneratedAssembly_add g c = Ok g'
    /\ read_inv ({[CompiledCodeInfo.code_addr c]} ∪ loaded) g'.
Proof.
  intros [Hdom Hhigh]. unfold GeneratedAssembly_add.
  assert (Hinv : forall b, read_inv ({[CompiledCodeInfo.code_addr c]} ∪ loaded)
            (GeneratedAssembly.mk (GeneratedAssembly.store g ++ [c])
               (GeneratedAssembly.code_info g
                  ++ [length (GeneratedAssembly.store g)])
               (Some (fst b)) (Some (snd b))
               (<[CompiledCodeInfo.code_addr c
                    := length (GeneratedAssembly.store g)]>
                  (GeneratedAssembly.code_by_address g))
               (GeneratedAssembly.map g))).
  { intros b. split; simpl; [|eauto]. rewrite dom_insert_L, Hdom. reflexivity. }
  destruct (GeneratedAssembly.low_address g) as [l|]; simpl.
  - destruct (l =? 0); simpl;
      [eexists; split; [reflexivity|exact (Hinv (_, _))]|].
    destruct (Hhigh ltac:(eauto)) as [h ->]. simpl.
    eexists; split; [reflexivity|exact (Hinv (_, _))].
  - eexists; split; [reflexivity|exact (Hinv (_, _))].
Qed.

Lemma read_inv_empty : read_inv ∅ GeneratedAssembly.empty.
Proof.
  split; simpl.
  - apply dom_empty_L.
  - intros [x Hx]. discriminate.
Qed.

(** A record that [read] processes leaves the invariant for the loaded
    addresses extended by its own. *)
Lemma read_record_inv loaded g r g' :
  read_inv loaded g -> read_record g r = Ok g' ->
  read_inv (list_to_set (option_list (load_address r)) ∪ loaded) g'.
Proof.
  intros Hinv H. destruct r as [ts name a sz code|ts a|ts a sz code ms ds|tag];
    simpl in H.
  - destruct (GeneratedAssembly_add_ok loaded g
                (CompiledCodeInfo.init name ts a sz code true None None) Hinv)
      as (g1 & Hadd & Hinv1).
    rewrite Hadd in H. injection H as <-. simpl in *.
    replace ({[a]} ∪ ∅ ∪ loaded) with ({[a]} ∪ loaded) by set_solver.
    exact Hinv1.
  - destruct (GeneratedAssembly.code_by_address g !! a); [|discriminate].
    injection H as <-. simpl.
    replace (∅ ∪ loaded) with loaded by set_solver.
    destruct Hinv as [Hdom Hhigh]. split; simpl; assumption.
  - destruct ms as [|m ms]; [discriminate|].
    destruct (GeneratedAssembly_add_ok loaded g
                (CompiledCodeInfo.init (Method.format_name m true) ts a sz code
                   false (Some ds) (Some (m :: ms))) Hinv)
      as (g1 & Hadd & Hinv1).
    rewrite Hadd in H. injection H as <-. simpl in *.
    replace ({[a]} ∪ ∅ ∪ loaded) with ({[a]} ∪ loaded) by set_solver.
    exact Hinv1.
  - discriminate.
Qed.

Lemma read_app pre : forall g rest,
  Forall (fun r => record_tag r <> 0) pre ->
  read g (pre ++ rest) = (let? g' := read g pre in read g' rest).
Proof.
  induction pre as [|r pre IH]; intros g rest Hpre; [reflexivity|].
  inversion Hpre as [|? ? Hr Hpre']; subst. simpl.
  replace (record_tag r =? 0) with false by (symmetry; apply Z.eqb_neq; exact Hr).
  destruct (read_record g r) as [g1|e]; simpl; [|reflexivity].
  apply IH, Hpre'.
Qed.

Lemma read_inv_read records : forall loaded g g',
  read_inv loaded g ->
  Forall (fun r => record_tag r <> 0) records ->
  read g records = Ok g' ->
  read_inv (list_to_set (loaded_addresses records) ∪ loaded) g'.
Proof.
  induction records as [|r records IH]; intros loaded g g' Hinv Htags H.
  - simpl in H. injection H as <-.
    replace (list_to_set (loaded_addresses []) ∪ loaded) with loaded
      by set_solver.
    exact Hinv.
  - inversion Htags as [|? ? Hr Htags']; subst. simpl in H.
    replace (record_tag r =? 0) with false in H
      by (symmetry; apply Z.eqb_neq; exact Hr).
    destruct (read_record g r) as [g1|e] eqn:Hrec; [|discriminate].
    simpl in H.
    pose proof (read_record_inv loaded g r g1 Hinv Hrec) as Hinv1.
    pose proof (IH _ g1 g' Hinv1 Htags' H) as Hinv'.
    replace (list_to_set (loaded_addresses (r :: records)) ∪ loaded)
      with (list_to_set (loaded_addresses records)
            ∪ (list_to_set (option_list (load_address r)) ∪ loaded)).
    + exact Hinv'.
    + unfold loaded_addresses. simpl.
      destruct (load_address r); simpl; set_solver.
Qed.

Lemma read_well_formed records : forall loaded g,
  read_inv loaded g -> well_formed_from loaded records = true ->
  exists g', read g records = Ok g'.
Proof.
  induction records as [|r records IH]; intros loaded g Hinv Hwf.
  - exists g. reflexivity.
  - destruct r as [ts name a sz code|ts a|ts a sz code ms ds|tag];
      simpl in Hwf.
    + destruct (GeneratedAssembly_add_ok loaded g
                  (CompiledCodeInfo.init name ts a sz code true None None) Hinv)
        as (g1 & Hadd & Hinv1).
      change (read g (DynamicCode ts name a sz code :: records))
        with (let? g' := GeneratedAssembly_add g
                (CompiledCodeInfo.init name ts a sz code true None None) in
              read g' records).
      rewrite Hadd. simpl. eapply IH; eassumption.
    + apply andb_true_iff in Hwf as [Ha Hwf].
      apply bool_decide_eq_true in Ha.
      destruct Hinv as [Hdom Hhigh]. rewrite <- Hdom in Ha.
      apply elem_of_dom in Ha as [id Hid].
      change (read g (CompiledMethodUnload ts a :: records))
        with (let? g' := read_record g (CompiledMethodUnload ts a) in
              read g' records).
      simpl read_record. rewrite Hid. simpl.
      eapply IH; [|exact Hwf]. split; simpl; assumption.
    + destruct ms as [|m ms]; [discriminate|].
      destruct (GeneratedAssembly_add_ok loaded g
                  (CompiledCodeInfo.init (Method.format_name m true) ts a sz
                     code false (Some ds) (Some (m :: ms))) Hinv)
        as (g1 & Hadd & Hinv1).
      change (read g (CompiledMethodLoad ts a sz code (m :: ms) ds :: records))
        with (let? g' := GeneratedAssembly_add g
                (CompiledCodeInfo.init (Method.format_name m true) ts a sz
                   code false (Some ds) (Some (m :: ms))) in
              read g' records).
      rewrite Hadd. simpl. eapply IH; eassumption.
    + discriminate.
Qed.

(** C8: an unload record at an address that no earlier record of the
    trace has loaded makes [read] fail, with a [KeyError] at that record
    when decoding gets there; a well-formed trace, where every unload is
    at the address of an earlier load, is decoded without error. *)
Theorem unload_requires_prior_load :
  (forall (pre post : list trace_record) (ts : float) (a : Z),
     Forall (fun r => record_tag r <> 0) pre ->
     a ∉ loaded_addresses pre ->
     is_ok (read GeneratedAssembly.empty
              (pre ++ CompiledMethodUnload ts a :: post)) = false
     /\ forall g, read GeneratedAssembly.empty pre = Ok g ->
          read GeneratedAssembly.empty
            (pre ++ CompiledMethodUnload ts a :: post)
          = Raise (KeyError a))
  /\ (forall records : list trace_record,
        well_formed_from ∅ records = true ->
        exists g, read GeneratedAssembly.empty records = Ok g).
Proof.
  split.
  - intros pre post ts a Htags Ha.
    rewrite read_app by exact Htags.
    destruct (read GeneratedAssembly.empty pre) as [g|e] eqn:Hpre; simpl.
    + pose proof (read_inv_read pre ∅ _ g read_inv_empty Htags Hpre)
        as [Hdom _].
      assert (Hnone : GeneratedAssembly.code_by_address g !! a = None).
      { apply not_elem_of_dom. rewrite Hdom. set_solver. }
      change (read g (CompiledMethodUnload ts a :: post))
        with (let? g' := read_record g (CompiledMethodUnload ts a) in
              read g' post).
      simpl read_record. rewrite Hnone. simpl.
      split; [reflexivity|]. intros g0 _. reflexivity.
    + split; [reflexivity|]. intros g0 H. discriminate.
  - intros records Hwf.
    exact (read_well_formed records ∅ _ read_inv_empty Hwf).
Qed.

(** C3: a stub contains every address of its range at every timestamp,
    and still does once its unload time is set; an unload record at the
    address of a stub is accepted and sets the unload time of the
    stub. *)
Theorem stub_contains_at_any_time (c : CompiledCodeInfo.t) (pc : Z)
    (t ts : float) :
  CompiledCodeInfo.generated c = true ->
  CompiledCodeInfo.code_begin c <= pc < CompiledCodeInfo.code_end c ->
  CompiledCodeInfo.contains c pc (Some t) = true
  /\ CompiledCodeInfo.contains (CompiledCodeInfo.set_unload_time ts c) pc
       (Some t) = true
  /\ forall (g : GeneratedAssembly.t) (id : nat),
       GeneratedAssembly.code_by_address g !! CompiledCodeInfo.code_addr c
         = Some id ->
       GeneratedAssembly.store g !! id = Some c ->
       exists g',
         read_record g (CompiledMethodUnload ts (CompiledCodeInfo.code_addr c))
           = Ok g'
         /\ GeneratedAssembly.store g' !! id
            = Some (CompiledCodeInfo.set_unload_time ts c).
Proof.
  intros Hgen Hpc. unfold CompiledCodeInfo.code_begin in Hpc.
  assert (Hin : (CompiledCodeInfo.code_addr c <=? pc)
                && (pc <? CompiledCodeInfo.code_end c) = true).
  { apply andb_true_iff. split; [apply Z.leb_le|apply Z.ltb_lt]; lia. }
  repeat split.
  - unfold CompiledCodeInfo.contains. rewrite Hin, Hgen. reflexivity.
  - unfold CompiledCodeInfo.contains.
    change (CompiledCodeInfo.code_addr (CompiledCodeInfo.set_unload_time ts c))
      with (CompiledCodeInfo.code_addr c).
    change (CompiledCodeInfo.code_end (CompiledCodeInfo.set_unload_time ts c))
      with (CompiledCodeInfo.code_end c).
    rewrite Hin. simpl. rewrite Hgen. reflexivity.
  - intros g id Haddr Hid. simpl. rewrite Haddr.
    eexists. split; [reflexivity|]. simpl.
    rewrite list_lookup_alter_eq, Hid. reflexivity.
Qed.

Lemma stub_contains_at_any_time_witness :
  CompiledCodeInfo.contains stub_x 4100 (Some 7%float) = true
  /\ CompiledCodeInfo.contains (CompiledCodeInfo.set_unload_time 5%float stub_x)
       4100 (Some 7%float) = true.
Proof.
  pose proof (stub_contains_at_any_time stub_x 4100 7%float 5%float) as H.
  destruct H as (H1 & H2 & _).
  - reflexivity.
  - unfold CompiledCodeInfo.code_begin, CompiledCodeInfo.code_end. simpl. lia.
  - split; assumption.
Defined.

(** After the trace of the examples the stub has its unload time set to
    5 and still contains its addresses at the later time 7. *)
Example stub_trace_contains :
  (fun g => (fun c => (CompiledCodeInfo.unload_time c,
                       CompiledCodeInfo.contains c 4100 (Some 7%float)))
            <$> GeneratedAssembly.store g)
  <$> (match read GeneratedAssembly.empty stub_trace with
       | Ok g => Some g | Raise _ => None end)
  = Some [(Some 5%float, true)].
Proof. vm_compute. reflexivity. Qed.

(** ** Ranking *)

Lemma insert_desc_perm key x l : Permutation (x :: l) (insert_desc key x l).
Proof.
  induction l as [|y l IH]; simpl; [reflexivity|].
  destruct (key y <=? key x); [reflexivity|].
  rewrite perm_swap. apply perm_skip, IH.
Qed.

Lemma sort_desc_perm key l : Permutation l (sort_desc key l).
Proof.
  induction l as [|x l IH]; simpl; [reflexivity|].
  rewrite <- insert_desc_perm. apply perm_skip, IH.
Qed.

Lemma insert_desc_sorted key x l :
  StronglySorted (fun a b => key b <= key a) l ->
  StronglySorted (fun a b => key b <= key a) (insert_desc key x l).
Proof.
  induction 1 as [|y l Hl IH Hy]; simpl.
  - repeat constructor.
  - destruct (key y <=? key x) eqn:E.
    + apply Z.leb_le in E. constructor; [constructor; assumption|].
      constructor; [exact E|].
      eapply Forall_impl; [exact Hy|]. simpl. intros z Hz. lia.
    + apply Z.leb_gt in E. constructor; [exact IH|].
      rewrite <- insert_desc_perm. constructor; [lia|exact Hy].
Qed.

Lemma sort_desc_sorted key l :
  StronglySorted (fun a b => key b <= key a) (sort_desc key l).
Proof.
  induction l as [|x l IH]; simpl; [constructor|].
  apply insert_desc_sorted, IH.
Qed.

(** The sort is stable: the elements of one key keep their order. *)
Lemma insert_desc_stable key k x l :
  List.filter (fun a => key a =? k) (insert_desc key x l)
  = List.filter (fun a => key a =? k) (x :: l).
Proof.
  induction l as [|y l IH]; [reflexivity|].
  simpl insert_desc. destruct (key y <=? key x) eqn:E; [reflexivity|].
  apply Z.leb_gt in E. simpl in *. rewrite IH.
  destruct (key x =? k) eqn:Ex; [|reflexivity].
  apply Z.eqb_eq in Ex.
  replace (key y =? k) with false by (symmetry; apply Z.eqb_neq; lia).
  reflexivity.
Qed.

Lemma sort_desc_stable key k l :
  List.filter (fun a => key a =? k) (sort_desc key l)
  = List.filter (fun a => key a =? k) l.
Proof.
  induction l as [|x l IH]; [reflexivity|].
  simpl sort_desc. rewrite insert_desc_stable. simpl. rewrite IH. reflexivity.
Qed.

(** C10: without a predicate [top_methods] returns the stored list
    [code_info] itself, stably sorted by descending [total_period], and
    leaves it stored in that order, everything else unchanged; with a
    predicate the assembly is unchanged.  On the assembly of the
    examples the stored order changes from load order, and the linear
    scan, which follows [code_info], returns the regions in the new
    order. *)
Theorem top_methods_sorts_in_place :
  (forall g : GeneratedAssembly.t,
     let key := total_period_of (GeneratedAssembly.store g) in
     let entries := fst (top_methods g None) in
     let g' := snd (top_methods g None) in
     GeneratedAssembly.code_info g' = entries
     /\ Permutation (GeneratedAssembly.code_info g) entries
     /\ StronglySorted (fun a b => key b <= key a) entries
     /\ (forall k, List.filter (fun a => key a =? k) entries
                   = List.filter (fun a => key a =? k)
                       (GeneratedAssembly.code_info g))
     /\ GeneratedAssembly.store g' = GeneratedAssembly.store g
     /\ GeneratedAssembly.map g' = GeneratedAssembly.map g
     /\ GeneratedAssembly.code_by_address g'
        = GeneratedAssembly.code_by_address g)
  /\ (forall (g : GeneratedAssembly.t) (f : CompiledCodeInfo.t -> bool),
        snd (top_methods g (Some f)) = g)
  /\ (exists g : GeneratedAssembly.t,
        reuse_assembly = Some g
        /\ GeneratedAssembly.code_info g = [0; 1]%nat
        /\ GeneratedAssembly.code_info (snd (top_methods g None)) = [1; 0]%nat
        /\ search g 8196 = [0; 1]%nat
        /\ search (snd (top_methods g None)) 8196 = [1; 0]%nat).
Proof.
  split; [|split].
  - intros g key entries g'. subst entries g'. simpl.
    repeat split.
    + apply sort_desc_perm.
    + apply sort_desc_sorted.
    + intros k. apply sort_desc_stable.
  - intros g f. reflexivity.
  - destruct reuse_assembly as [g|] eqn:Hg; [|vm_compute in Hg; discriminate].
    exists g. split; [reflexivity|].
    vm_compute in Hg. injection Hg as <-.
    vm_compute. repeat split; reflexivity.
Qed.

(** ** Lookup *)

Lemma with_search_map_frame g :
  GeneratedAssembly.store (with_search_map g) = GeneratedAssembly.store g
  /\ GeneratedAssembly.code_info (with_search_map g)
     = GeneratedAssembly.code_info g
  /\ GeneratedAssembly.code_by_address (with_search_map g)
     = GeneratedAssembly.code_by_address g
  /\ GeneratedAssembly.low_address (with_search_map g)
     = GeneratedAssembly.low_address g
  /\ GeneratedAssembly.high_address (with_search_map g)
     = GeneratedAssembly.high_address g.
Proof. unfold with_search_map. case_bool_decide; repeat split. Qed.

Lemma contains_no_timestamp x pc :
  CompiledCodeInfo.contains x pc None = in_range pc x.
Proof.
  unfold CompiledCodeInfo.contains, in_range.
  destruct (_ && _); [apply orb_true_r|reflexivity].
Qed.

Lemma contains_timestamp_window x pc timestamp :
  CompiledCodeInfo.contains x pc (Some timestamp)
  = in_range pc x && time_window_matches timestamp x.
Proof.
  unfold CompiledCodeInfo.contains, in_range, time_window_matches,
    CompiledCodeInfo.contains_timestamp, unloaded_after.
  destruct (_ && _); reflexivity.
Qed.

Lemma region_test_ext store (f f' : CompiledCodeInfo.t -> bool) id :
  (forall x, f x = f' x) -> region_test store f id = region_test store f' id.
Proof.
  intros H. unfold region_test. destruct (store !! id); simpl; auto.
Qed.

Lemma filter_ext_fun {A : Type} (f f' : A -> bool) (l : list A) :
  (forall x, f x = f' x) -> List.filter f l = List.filter f' l.
Proof.
  intros H. induction l as [|x l IH]; simpl; [reflexivity|].
  rewrite H, IH. reflexivity.
Qed.

Lemma find_entries_candidates g pc : find_entries g pc = candidates g pc.
Proof.
  unfold find_entries, candidates, bucket.
  destruct (GeneratedAssembly.map g !! round_down pc) as [[|e entries]|];
    try reflexivity.
  apply filter_ext_fun. intros id. apply region_test_ext.
  intros x. apply contains_no_timestamp.
Qed.

(** On candidates the test with a timestamp is the time test. *)
Lemma find_exact_window store pc timestamp (l : list nat) :
  Forall (fun id => region_test store (in_range pc) id = true) l ->
  List.find (region_test store
               (fun x => CompiledCodeInfo.contains x pc (Some timestamp))) l
  = List.find (region_test store (time_window_matches timestamp)) l.
Proof.
  induction 1 as [|id l Hid Hl IH]; simpl; [reflexivity|].
  rewrite IH. unfold region_test in *.
  destruct (store !! id) as [x|]; simpl in *; [|reflexivity].
  rewrite contains_timestamp_window, Hid. reflexivity.
Qed.

Lemma candidates_in_range g pc :
  Forall (fun id => region_test (GeneratedAssembly.store g) (in_range pc) id
                    = true) (candidates g pc).
Proof.
  apply Forall_forall. intros id Hid. apply list_elem_of_In in Hid.
  unfold candidates in Hid. apply List.filter_In in Hid as [_ H]. exact H.
Qed.

Lemma range_from_lower start n step x :
  0 < step -> x ∈ range_from start n step -> start <= x.
Proof.
  intros Hstep. revert start. induction n as [|n IH]; intros start Hx; simpl in Hx.
  - apply elem_of_nil in Hx. contradiction.
  - apply elem_of_cons in Hx as [->|Hx]; [lia|]. apply IH in Hx. lia.
Qed.

Lemma range_from_NoDup start n step :
  0 < step -> NoDup (range_from start n step).
Proof.
  intros Hstep. revert start. induction n as [|n IH]; intros start; simpl.
  - constructor.
  - constructor; [|apply IH].
    intros Hin. apply range_from_lower in Hin; lia.
Qed.

Lemma bucket_keys_NoDup c : NoDup (bucket_keys c).
Proof. apply range_from_NoDup. reflexivity. Qed.

Lemma add_to_bucket_lookup code m k k' :
  default [] (add_to_bucket code m k !! k')
  = default [] (m !! k') ++ (if bool_decide (k' = k) then [code] else []).
Proof.
  unfold add_to_bucket. case_bool_decide as Hk.
  - subst k'. destruct (m !! k) as [[|e entries]|] eqn:E;
      rewrite lookup_insert_eq; reflexivity.
  - rewrite app_nil_r.
    destruct (m !! k) as [[|e entries]|]; rewrite lookup_insert_ne by congruence;
      reflexivity.
Qed.

Lemma add_to_bucket_fold code keys : forall m k',
  NoDup keys ->
  default [] (fold_left (add_to_bucket code) keys m !! k')
  = default [] (m !! k') ++ (if bool_decide (k' ∈ keys) then [code] else []).
Proof.
  induction keys as [|k keys IH]; intros m k' Hnd; simpl.
  - rewrite app_nil_r. reflexivity.
  - apply NoDup_cons in Hnd as [Hk Hnd].
    rewrite IH by exact Hnd. rewrite add_to_bucket_lookup, <- app_assoc.
    f_equal.
    destruct (decide (k' = k)) as [->|Hne].
    + rewrite bool_decide_eq_true_2 by reflexivity.
      rewrite (bool_decide_eq_false_2 (k ∈ keys)) by exact Hk.
      rewrite bool_decide_eq_true_2 by (left).
      reflexivity.
    + rewrite (bool_decide_eq_false_2 (k' = k)) by exact Hne. simpl.
      destruct (decide (k' ∈ keys)) as [Hin|Hnin].
      * rewrite !bool_decide_eq_true_2; [reflexivity|right; exact Hin|exact Hin].
      * rewrite !bool_decide_eq_false_2; [reflexivity| |exact Hnin].
        intros H. apply elem_of_cons in H as [H|H]; contradiction.
Qed.

(** The search map enters the regions in the order of [code_info]. *)
Lemma index_code_fold store ids : forall m key,
  default [] (fold_left (index_code store) ids m !! key)
  = default [] (m !! key) ++ List.filter (covers store key) ids.
Proof.
  induction ids as [|id ids IH]; intros m key; simpl.
  - rewrite app_nil_r. reflexivity.
  - rewrite IH.
    assert (Hid : default [] (index_code store m id !! key)
                  = default [] (m !! key)
                    ++ (if covers store key id then [id] else [])).
    { unfold index_code, covers, region_test.
      destruct (store !! id) as [c|]; simpl.
      - fold (bucket_keys c).
        rewrite add_to_bucket_fold by apply bucket_keys_NoDup. reflexivity.
      - rewrite app_nil_r. reflexivity. }
    rewrite Hid, <- app_assoc.
    destruct (covers store key id); reflexivity.
Qed.

Lemma bucket_of_built_map g0 pc :
  GeneratedAssembly.map g0 = ∅ ->
  bucket (with_search_map g0) pc
  = List.filter (covers (GeneratedAssembly.store g0) (round_down pc))
      (GeneratedAssembly.code_info g0).
Proof.
  intros Hmap. unfold with_search_map.
  rewrite bool_decide_eq_true_2 by exact Hmap.
  unfold bucket, build_search_map. simpl.
  rewrite index_code_fold, Hmap, lookup_empty. reflexivity.
Qed.

Lemma range_from_elem start step i n :
  (i < n)%nat -> start + Z.of_nat i * step ∈ range_from start n step.
Proof.
  revert start i. induction n as [|n IH]; intros start i Hi; [lia|].
  simpl. destruct i as [|i].
  - replace (start + Z.of_nat 0 * step) with start by lia. left.
  - right.
    replace (start + Z.of_nat (S i) * step)
      with ((start + step) + Z.of_nat i * step) by lia.
    apply IH. lia.
Qed.

(** A region with a base address that is not negative is entered in the
    bucket of every address of its range. *)
Lemma in_range_bucket_keys c pc :
  0 <= CompiledCodeInfo.code_addr c -> in_range pc c = true ->
  round_down pc ∈ bucket_keys c.
Proof.
  intros Hbase Hin. unfold in_range in Hin.
  apply andb_true_iff in Hin as [Hlo Hhi].
  apply Z.leb_le in Hlo. apply Z.ltb_lt in Hhi.
  unfold bucket_keys, py_range, round_down, round_up, bucket_size,
    CompiledCodeInfo.code_begin.
  set (b := CompiledCodeInfo.code_addr c) in *.
  set (e := CompiledCodeInfo.code_end c) in *.
  rewrite !Z.quot_div_nonneg by lia.
  assert (Hqb : b / 8192 <= pc / 8192) by (apply Z.div_le_mono; lia).
  assert (Hqe : pc / 8192 < (e + 8192 - 1) / 8192).
  { replace (e + 8192 - 1) with ((e - 1) + 1 * 8192) by lia.
    rewrite Z.div_add by lia.
    assert (pc / 8192 <= (e - 1) / 8192) by (apply Z.div_le_mono; lia). lia. }
  replace (8192 * ((e + 8192 - 1) / 8192) - 8192 * (b / 8192) + 8192 - 1)
    with (8191 + ((e + 8192 - 1) / 8192 - b / 8192) * 8192) by lia.
  rewrite Z.div_add by lia. change (8191 / 8192) with 0. rewrite Z.add_0_l.
  replace (8192 * (pc / 8192))
    with (8192 * (b / 8192) + Z.of_nat (Z.to_nat (pc / 8192 - b / 8192)) * 8192)
    by lia.
  apply range_from_elem. lia.
Qed.

Lemma filter_filter_implied {A : Type} (f f' : A -> bool) (l : list A) :
  (forall x, f x = true -> f' x = true) ->
  List.filter f (List.filter f' l) = List.filter f l.
Proof.
  intros H. induction l as [|x l IH]; [reflexivity|]. simpl.
  destruct (f x) eqn:Hf.
  - rewrite (H x Hf). simpl. rewrite Hf, IH. reflexivity.
  - destruct (f' x); simpl; [rewrite Hf|]; exact IH.
Qed.

(** When this call builds the search map, over regions with base
    addresses that are not negative, the candidates are all the regions
    whose range contains the address, in the order of [code_info]. *)
Lemma candidates_of_built_map g0 pc :
  GeneratedAssembly.map g0 = ∅ ->
  Forall (fun c => 0 <= CompiledCodeInfo.code_addr c)
    (GeneratedAssembly.store g0) ->
  candidates (with_search_map g0) pc
  = List.filter (region_test (GeneratedAssembly.store g0) (in_range pc))
      (GeneratedAssembly.code_info g0).
Proof.
  intros Hmap Hbase. unfold candidates.
  rewrite bucket_of_built_map by exact Hmap.
  assert (Hstore : GeneratedAssembly.store (with_search_map g0)
                   = GeneratedAssembly.store g0).
  { unfold with_search_map. case_bool_decide; reflexivity. }
  rewrite Hstore. apply filter_filter_implied.
  intros id Hid. unfold covers, region_test in *.
  destruct (GeneratedAssembly.store g0 !! id) as [c|] eqn:Hc; simpl in *;
    [|discriminate].
  apply bool_decide_eq_true_2, in_range_bucket_keys; [|exact Hid].
  exact (Forall_lookup_1 _ _ _ _ Hbase Hc).
Qed.

(** C1: with the search map in place, the candidates of a lookup are
    the regions of the bucket of the address whose range contains it.
    A single candidate is returned whatever the timestamp.  Among
    several, the first whose time window matches is returned, else the
    first whose unload time is unset or later than the timestamp, else
    none.  When the lookup builds the map, the candidates come in the
    order of [code_info], which is load order after [read]. *)
Theorem find_policy (g0 : GeneratedAssembly.t) (pc : Z) (timestamp : float) :
  let g := with_search_map g0 in
  (forall x, candidates g pc = [x] ->
     forall ts, find g0 pc ts = Ok (Some x, g))
  /\ ((2 <= length (candidates g pc))%nat ->
      find g0 pc timestamp
      = Ok (select_by_time (GeneratedAssembly.store g) timestamp
              (candidates g pc), g))
  /\ (GeneratedAssembly.map g0 = ∅ ->
      Forall (fun c => 0 <= CompiledCodeInfo.code_addr c)
        (GeneratedAssembly.store g0) ->
      candidates g pc
      = List.filter (region_test (GeneratedAssembly.store g0) (in_range pc))
          (GeneratedAssembly.code_info g0)).
Proof.
  intros g. unfold find. fold g. rewrite find_entries_candidates.
  split; [|split].
  - intros x Hx ts. rewrite Hx. reflexivity.
  - intros Hlen.
    pose proof (candidates_in_range g pc) as Hin.
    destruct (candidates g pc) as [|x [|y l]] eqn:Hc;
      [simpl in Hlen; lia|simpl in Hlen; lia|].
    rewrite (find_exact_window _ pc timestamp _ Hin).
    unfold select_by_time.
    destruct (List.find _ (x :: y :: l)); reflexivity.
  - apply candidates_of_built_map.
Qed.

(** A first lookup over regions with base addresses that are not
    negative returns: the search map agrees with the linear scan, so the
    consistency check of [find] does not fire. *)
Lemma find_first_lookup_returns g0 pc timestamp :
  GeneratedAssembly.map g0 = ∅ ->
  Forall (fun c => 0 <= CompiledCodeInfo.code_addr c)
    (GeneratedAssembly.store g0) ->
  exists r, find g0 pc timestamp = Ok (r, with_search_map g0).
Proof.
  intros Hmap Hbase. unfold find. rewrite find_entries_candidates.
  pose proof (candidates_of_built_map g0 pc Hmap Hbase) as Hc.
  destruct (with_search_map_frame g0) as (Hstore & Hci & _).
  assert (Hsearch : search (with_search_map g0) pc
                    = candidates (with_search_map g0) pc).
  { rewrite Hc. unfold search. rewrite Hstore, Hci.
    apply filter_ext_fun. intros id. apply region_test_ext.
    intros x. apply contains_no_timestamp. }
  rewrite Hsearch.
  destruct (candidates (with_search_map g0) pc) as [|x [|y l]].
  - eexists. reflexivity.
  - eexists. reflexivity.
  - destruct (List.find _ (x :: y :: l)); eexists; reflexivity.
Qed.

(** [read] leaves the regions in [code_info] in the order of their load
    records, and builds no search map. *)
Lemma read_code_info_load_order records : forall g g',
  GeneratedAssembly.code_info g
    = seq 0 (length (GeneratedAssembly.store g)) ->
  GeneratedAssembly.map g = ∅ ->
  read g records = Ok g' ->
  GeneratedAssembly.code_info g'
    = seq 0 (length (GeneratedAssembly.store g'))
  /\ GeneratedAssembly.map g' = ∅.
Proof.
  assert (Hadd : forall g c g',
            GeneratedAssembly.code_info g
              = seq 0 (length (GeneratedAssembly.store g)) ->
            GeneratedAssembly.map g = ∅ ->
            GeneratedAssembly_add g c = Ok g' ->
            GeneratedAssembly.code_info g'
              = seq 0 (length (GeneratedAssembly.store g'))
            /\ GeneratedAssembly.map g' = ∅).
  { intros g c g' Hci Hmap H. unfold GeneratedAssembly_add in H.
    destruct (match GeneratedAssembly.low_address g with
              | Some _ => _ | None => _ end) as [b|]; [|discriminate].
    simpl in H. injection H as <-. simpl.
    rewrite length_app, seq_app, Hci. simpl. split; [reflexivity|exact Hmap]. }
  induction records as [|r records IH]; intros g g' Hci Hmap H; simpl in H.
  - injection H as <-. split; assumption.
  - destruct (record_tag r =? 0); [injection H as <-; split; assumption|].
    destruct (read_record g r) as [g1|e] eqn:Hrec; [|discriminate].
    simpl in H. apply (IH g1 g'); [| |exact H].
    + destruct r as [ts name a sz code|ts a|ts a sz code ms ds|tag];
        simpl in Hrec.
      * eapply Hadd; eassumption.
      * destruct (GeneratedAssembly.code_by_address g !! a); [|discriminate].
        injection Hrec as <-. simpl. rewrite length_alter. exact Hci.
      * destruct ms; [discriminate|]. eapply Hadd; eassumption.
      * discriminate.
    + destruct r as [ts name a sz code|ts a|ts a sz code ms ds|tag];
        simpl in Hrec.
      * eapply Hadd; eassumption.
      * destruct (GeneratedAssembly.code_by_address g !! a); [|discriminate].
        injection Hrec as <-. exact Hmap.
      * destruct ms; [discriminate|]. eapply Hadd; eassumption.
      * discriminate.
Qed.

(** Lookups on the trace with the reused address: a sample before the
    first load and one during the first window go to the first method,
    a sample between the windows and one in the second window to the
    second. *)
Example find_reuse :
  (fun g => List.map (fun ts => match find g 8196 ts with
                                | Ok (r, _) => r
                                | Raise _ => None
                                end)
              [5%float; 15%float; 25%float; 35%float])
  <$> reuse_assembly
  = Some [Some 0%nat; Some 0%nat; Some 1%nat; Some 1%nat].
Proof. vm_compute. reflexivity. Qed.

(** ** Attribution *)




(** Fifty samples that no region contains are counted as missing
    without a warning; the fifty-first brings the warning. *)
Example missing_50_is_silent :
  gap_attribution 50 = Some (mk_counters 0 0 50, None).
Proof. vm_compute. reflexivity. Qed.

Example missing_51_warns :
  gap_attribution 51 = Some (mk_counters 0 0 51, Some (51, 51)).
Proof. vm_compute. reflexivity. Qed.

(** The sample in the second method is attributed to it and takes its
    name and the marker of compiled methods. *)
Example attribute_sample_b :
  match attribute_events reuse_read (merge_perf_events (decoded [sample_b])) with
  | Ok a =>
      (objects (PerfOutput.store (at_perf_data a))
         (PerfOutput.events (at_perf_data a)),
       (fun c => (CompiledCodeInfo.events c, CompiledCodeInfo.total_period c,
                  CompiledCodeInfo.total_samples c))
       <$> GeneratedAssembly.store (at_assembly a),
       at_counters a, at_warning a)
  | Raise _ => ([], [], mk_counters 0 0 0, None)
  end
  = ([PerfEvent.mk "[JIT]" 100 "foo.B.b()" 8196 "cycles" 35%float 1],
     [([], 0, 0); ([1%nat], 100, 1)],
     mk_counters 1 0 0, None).
Proof. vm_compute. reflexivity. Qed.
